(** * sqsURLProducer: the dispatch loop and the batch sender

    A shallow embedding of package [main] and of the model [models.URLs]:
    the polling loop started by [main], [processURLs] and [sendBatch]. The
    store (gorm over Postgres) and the queue (SQS) are
    external systems: their replies are given by an environment, and every
    call the program makes is recorded, with its instant, in a trace. The
    clock moves only in [time.Sleep]: a call to the store or to the queue is
    taken to return at once, so that an instant counts the time slept. *)

From Stdlib Require Import ZArith String List Bool Lia DecimalString.
From Stdlib Require DecimalZ DecimalPos.
From Equations Require Import Equations.
Import ListNotations.
Open Scope Z_scope.

(** ** Machine integers and durations *)

(** Go's [int], [int64] and [time.Duration] on a 64-bit platform: two's
    complement, arithmetic wraps around. *)
Definition wrap64 (z : Z) : Z := (z + 2 ^ 63) mod 2 ^ 64 - 2 ^ 63.

Definition Second : Z := 1000000000.

(** The constant block of package [main]. *)
Definition BatchSize : Z := 10.
Definition RetryAttempts : Z := 3.
Definition RetryBackoff : Z := 2 * Second.
Definition DatabaseLimit : Z := 100.
Definition PollingInterval : Z := 10 * Second.

(** ** Data *)

(** [models.URLs]: the two fields the struct declares. *)
Record URLs : Type := mkURLs { ID : Z; URL : string }.

(** The Go type of a field. *)
Inductive GoType : Type := TUint | TString | TBool.

(** One column as a field and its gorm tag declare it. *)
Record Column : Type := mkColumn {
  col_name : string;
  col_type : GoType;
  col_primary_key : bool;
  col_auto_increment : bool;
  col_not_null : bool;
  col_default : option string;
  col_index : bool
}.

(** The columns [db.AutoMigrate(&models.URLs{})] derives from the struct:
    [ID uint `gorm:"column:id; primary_key; autoIncrement"`] and
    [URL string `gorm:"column:url; not null"`]. *)
Definition URLs_columns : list Column :=
  [ mkColumn "id" TUint true true false None false;
    mkColumn "url" TString false false true None false ].

(** The column [processURLs] names in [Where("processed = ?", false)] and in
    [Update("processed", true)], and the one it names in [Where("url = ?", _)]. *)
Definition processed_column : string := "processed".
Definition url_column : string := "url".

(** A row of the [urls] table as [processURLs] queries it. *)
Record Row : Type := mkRow { row_id : Z; row_url : string; row_processed : bool }.

(** [types.SendMessageBatchRequestEntry], the three fields the code sets. *)
Record Entry : Type := mkEntry {
  Id : string;
  MessageBody : string;
  MessageGroupId : string
}.

(** [fmt.Sprintf(prefix + "%d", n)]. *)
Definition Sprintf_d (prefix : string) (n : Z) : string :=
  (prefix ++ NilZero.string_of_int (Z.to_int n))%string.

(** Go's [error]: [None] is [nil]. *)
Definition error : Type := option string.

(** ** Effects *)

(** The lines the program logs, with the values it formats into them. *)
Inductive LogLine : Type :=
| LogQueryFailed
| LogNoURLs
| LogProcessing (n : Z)
| LogSent (n : Z)
| LogAttemptFailed (attempt : Z)
| LogBatchFailed (err : string)
| LogShuttingDown.

(** What the program does to the outside: a [Find] and its result ([None]
    for an error), a [SendMessageBatch] and whether it was accepted, an
    [Update] keyed on a url and whether the store executed it, a
    [time.Sleep], a log line. *)
Inductive Event : Type :=
| EvFind (res : option (list URLs))
| EvSend (batch : list Entry) (ok : bool)
| EvUpdate (url : string) (ok : bool)
| EvSleep (d : Z)
| EvLog (line : LogLine).

(** An event with the instant (in nanoseconds) at which it starts. *)
Definition Call : Type := (Z * Event)%type.

(** What the program does not control: the replies of the queue (by call
    number, and by whether the context passed along is already cancelled),
    the replies of the store (by call number), and the instant at which
    [handleShutdown] calls [cancel], if it ever does. *)
Record Env : Type := mkEnv {
  sqs_ok : nat -> bool -> bool;
  db_ok : nat -> bool;
  cancel_at : option Z
}.

(** The table, the counter [messageCount] of [main], the clock, and the
    number of calls made so far to the queue and to the store. *)
Record State : Type := mkState {
  table : list Row;
  messageCount : Z;
  now : Z;
  sqs_calls : nat;
  db_calls : nat
}.

(** A computation reads the environment, threads the state and emits calls. *)
Definition M (A : Type) : Type := Env -> State -> A * State * list Call.

Definition ret {A} (a : A) : M A := fun _ s => (a, s, []).

Definition bind {A B} (c : M A) (k : A -> M B) : M B :=
  fun env s =>
    let '(a, s1, t1) := c env s in
    let '(b, s2, t2) := k a env s1 in
    (b, s2, t1 ++ t2).

Notation "x <- c ;; k" := (bind c (fun x => k))
  (at level 61, c at next level, right associativity).
Notation "c ;;; k" := (bind c (fun _ => k))
  (at level 61, right associativity).

Fixpoint forM_ {A} (f : A -> M unit) (l : list A) : M unit :=
  match l with
  | [] => ret tt
  | x :: r => f x ;;; forM_ f r
  end.

Fixpoint mapM {A B} (f : A -> M B) (l : list A) : M (list B) :=
  match l with
  | [] => ret []
  | x :: r => y <- f x ;; ys <- mapM f r ;; ret (y :: ys)
  end.

Definition log_Printf (line : LogLine) : M unit :=
  fun _ s => (tt, s, [(now s, EvLog line)]).

(** [time.Sleep(d)]: returns at once when [d <= 0]; nothing interrupts it. *)
Definition time_Sleep (d : Z) : M unit :=
  fun _ s =>
    (tt, mkState (table s) (messageCount s) (now s + Z.max 0 d)
                 (sqs_calls s) (db_calls s),
     [(now s, EvSleep d)]).

(** Whether [ctx.Done()] is closed at instant [t]. *)
Definition done_at (env : Env) (t : Z) : bool :=
  match cancel_at env with
  | Some c => c <=? t
  | None => false
  end.

Definition ctx_Done : M bool := fun env s => (done_at env (now s), s, []).

(** [sqsClient.SendMessageBatch(ctx, input)]: [true] when [err == nil]. *)
Definition SendMessageBatch (batch : list Entry) : M bool :=
  fun env s =>
    let ok := sqs_ok env (sqs_calls s) (done_at env (now s)) in
    (ok, mkState (table s) (messageCount s) (now s)
                 (S (sqs_calls s)) (db_calls s),
     [(now s, EvSend batch ok)]).

Definition scan (r : Row) : URLs := mkURLs (row_id r) (row_url r).

(** The rows a successful [Limit(DatabaseLimit).Where("processed = ?", false)]
    query returns. The table lists the rows in the order in which the store
    returns them. *)
Definition fetched (s : State) : list URLs :=
  firstn (Z.to_nat DatabaseLimit)
         (map scan (filter (fun r => negb (row_processed r)) (table s))).

(** The state once one more store call has been made. *)
Definition queried (s : State) : State :=
  mkState (table s) (messageCount s) (now s) (sqs_calls s) (S (db_calls s)).

(** [db.Limit(DatabaseLimit).Where("processed = ?", false).Find(&urls)]:
    [None] when [result.Error != nil]. *)
Definition Find_unprocessed : M (option (list URLs)) :=
  fun env s =>
    if db_ok env (db_calls s) then
      (Some (fetched s), queried s, [(now s, EvFind (Some (fetched s)))])
    else (None, queried s, [(now s, EvFind None)]).

Definition mark (url : string) (r : Row) : Row :=
  if String.eqb (row_url r) url then mkRow (row_id r) (row_url r) true else r.

(** [db.Model(&models.URLs{}).Where("url = ?", url).Update("processed", true)];
    the code drops the result. A failed update leaves the table as it was. *)
Definition Update_processed (url : string) : M unit :=
  fun env s =>
    let ok := db_ok env (db_calls s) in
    (tt, mkState (if ok then map (mark url) (table s) else table s)
                 (messageCount s) (now s) (sqs_calls s) (S (db_calls s)),
     [(now s, EvUpdate url ok)]).

(** [*messageCount++], returning the new value. *)
Definition incr_messageCount : M Z :=
  fun _ s =>
    let mc := wrap64 (messageCount s + 1) in
    (mc, mkState (table s) mc (now s) (sqs_calls s) (db_calls s), []).

(** ** [sendBatch] *)

Definition errFailedAfter : string :=
  (Sprintf_d "failed to send batch after " RetryAttempts ++ " attempts")%string.

(** The body of [for attempt := 0; attempt < RetryAttempts; attempt++]:
    [remaining] iterations are left, the next one with counter [attempt]. *)
Fixpoint sendBatch_loop (remaining : nat) (attempt : Z) (batch : list Entry)
  : M error :=
  match remaining with
  | O => ret (Some errFailedAfter)
  | S remaining' =>
      ok <- SendMessageBatch batch ;;
      if ok then
        log_Printf (LogSent (Z.of_nat (length batch))) ;;;
        ret None
      else
        log_Printf (LogAttemptFailed (wrap64 (attempt + 1))) ;;;
        time_Sleep (wrap64 (RetryBackoff * wrap64 (attempt + 1))) ;;;
        sendBatch_loop remaining' (wrap64 (attempt + 1)) batch
  end.

Definition sendBatch (batch : list Entry) : M error :=
  sendBatch_loop (Z.to_nat RetryAttempts) 0 batch.

(** ** [processURLs] *)

Definition new_entry (mc : Z) (url : URLs) : Entry :=
  mkEntry (Sprintf_d "msg-" mc) (URL url) (Sprintf_d "group-" mc).

(** What the loop does once a batch is full or the last record is reached:
    send it, and on success update the rows by the body of each entry. *)
Definition flush (batch : list Entry) : M unit :=
  err <- sendBatch batch ;;
  match err with
  | Some e => log_Printf (LogBatchFailed e)
  | None => forM_ (fun entry => Update_processed (MessageBody entry)) batch
  end.

(** [for i, url := range urls] with [n = len(urls)]: [rest] is what is left
    of [urls] from index [i] on, [batch] the entries appended since the last
    reset. *)
Fixpoint range_urls (n i : Z) (rest : list URLs) (batch : list Entry) : M unit :=
  match rest with
  | [] => ret tt
  | url :: rest' =>
      mc <- incr_messageCount ;;
      let batch := batch ++ [new_entry mc url] in
      if (Z.of_nat (length batch) =? BatchSize) || (i =? n - 1) then
        flush batch ;;;
        range_urls n (i + 1) rest' []
      else range_urls n (i + 1) rest' batch
  end.

Definition processURLs : M unit :=
  res <- Find_unprocessed ;;
  match res with
  | None => log_Printf LogQueryFailed
  | Some urls =>
      if Z.of_nat (length urls) =? 0 then log_Printf LogNoURLs
      else
        log_Printf (LogProcessing (Z.of_nat (length urls))) ;;;
        range_urls (Z.of_nat (length urls)) 0 urls []
  end.

(** ** The goroutine of [main] *)

Inductive Outcome : Type := Stopped | OutOfFuel.

(** The [for { select {...}; time.Sleep(PollingInterval) }] loop, at most
    [fuel] iterations of it. *)
Fixpoint producer (fuel : nat) : M Outcome :=
  match fuel with
  | O => ret OutOfFuel
  | S fuel' =>
      cancelled <- ctx_Done ;;
      if cancelled then
        log_Printf LogShuttingDown ;;;
        ret Stopped
      else
        processURLs ;;;
        time_Sleep PollingInterval ;;;
        producer fuel'
  end.

(** ** Process start: [getEnv], [config.DBConnection], [app.InitApp], [main] *)

(** The environment of the process: [None] for a variable that is not set. *)
Definition Environ : Type := string -> option string.

(** [os.Getenv]: the empty string for a variable that is not set. *)
Definition os_Getenv (environ : Environ) (key : string) : string :=
  match environ key with
  | Some value => value
  | None => EmptyString
  end.

(** How a piece of the start-up ends: it returns, or [log.Fatal] /
    [log.Fatalf] logs a message and exits the process. *)
Inductive Exit (A : Type) : Type :=
| Returned (a : A)
| Fatal (msg : string).
Arguments Returned {A} a.
Arguments Fatal {A} msg.

(** [getEnv]. *)
Definition getEnv (environ : Environ) (key : string) : Exit string :=
  let value := os_Getenv environ key in
  if String.eqb value EmptyString
  then Fatal ("Environment variable " ++ key ++ " is not set")%string
  else Returned value.

(** The five values [main] reads, in the order in which it reads them. *)
Record Settings : Type := mkSettings {
  queueURL : string;
  accessKeyID : string;
  secretAccessKey : string;
  region : string;
  port : string
}.

(** The five [getEnv] calls at the top of [main]. *)
Definition main_getEnv (environ : Environ) : Exit Settings :=
  match getEnv environ "SQS_URL" with
  | Fatal msg => Fatal msg
  | Returned queueURL =>
  match getEnv environ "IAM_ACCESS_KEY" with
  | Fatal msg => Fatal msg
  | Returned accessKeyID =>
  match getEnv environ "IAM_SECRET" with
  | Fatal msg => Fatal msg
  | Returned secretAccessKey =>
  match getEnv environ "AWS_REGION" with
  | Fatal msg => Fatal msg
  | Returned region =>
  match getEnv environ "PORT" with
  | Fatal msg => Fatal msg
  | Returned port =>
      Returned (mkSettings queueURL accessKeyID secretAccessKey region port)
  end end end end end.

(** [config.DBConfig]. *)
Record DBConfig : Type := mkDBConfig {
  Host : string;
  Port : string;
  Password : string;
  User : string;
  DBName : string;
  SSLMode : string
}.

(** The connection string [DBConnection] formats:
    [fmt.Sprintf("host=%s port=%s user=%s password=%s dbname=%s sslmode=%s", ...)]. *)
Definition dsn_of (config : DBConfig) : string :=
  ("host=" ++ Host config ++ " port=" ++ Port config ++ " user=" ++ User config
   ++ " password=" ++ Password config ++ " dbname=" ++ DBName config
   ++ " sslmode=" ++ SSLMode config)%string.








(** The keys of [main_getEnv], in the order of the calls. *)
Definition settings_keys : list string :=
  ["SQS_URL"; "IAM_ACCESS_KEY"; "IAM_SECRET"; "AWS_REGION"; "PORT"]%string.

(** A string without a space. *)
Fixpoint no_space (s : string) : bool :=
  match s with
  | EmptyString => true
  | String c r => negb (Ascii.eqb c (Ascii.ascii_of_nat 32)) && no_space r
  end.

(** An environment given by a list of bindings, the first one for a key
    winning. *)
Fixpoint environ_of (l : list (string * string)) : Environ :=
  fun key =>
    match l with
    | [] => None
    | (k, v) :: r => if String.eqb k key then Some v else environ_of r key
    end.

(** * What the statements are written with *)

(** ** Runs and states *)

(** The three components of a run. *)
Definition result_of {A} (r : A * State * list Call) : A := fst (fst r).
Definition state_of {A} (r : A * State * list Call) : State := snd (fst r).
Definition trace_of {A} (r : A * State * list Call) : list Call := snd r.

(** The state after a run of [sendBatch]: only the clock and the number of
    queue calls move. *)
Definition sent (s : State) (t : Z) (calls : nat) : State :=
  mkState (table s) (messageCount s) t calls (db_calls s).

(** The state with the counter set to [mc]. *)
Definition counted (s : State) (mc : Z) : State :=
  mkState (table s) mc (now s) (sqs_calls s) (db_calls s).

(** The state [d] nanoseconds later. *)
Definition slept (s : State) (d : Z) : State :=
  mkState (table s) (messageCount s) (now s + d) (sqs_calls s) (db_calls s).

(** ** Reading a trace *)

(** The number of queue submissions in a trace. *)
Fixpoint sends (tr : list Call) : nat :=
  match tr with
  | [] => O
  | (_, EvSend _ _) :: r => S (sends r)
  | _ :: r => sends r
  end.

(** The batches submitted, whatever the reply. *)
Fixpoint submitted (tr : list Call) : list (list Entry) :=
  match tr with
  | [] => []
  | (_, EvSend b _) :: r => b :: submitted r
  | _ :: r => submitted r
  end.

(** The batches the queue accepted. *)
Fixpoint accepted (tr : list Call) : list (list Entry) :=
  match tr with
  | [] => []
  | (_, EvSend b true) :: r => b :: accepted r
  | _ :: r => accepted r
  end.

(** The mark calls: the url each one is keyed on, and whether the store
    executed it. *)
Fixpoint updates (tr : list Call) : list (string * bool) :=
  match tr with
  | [] => []
  | (_, EvUpdate u ok) :: r => (u, ok) :: updates r
  | _ :: r => updates r
  end.

(** The number of store reads. *)
Fixpoint finds (tr : list Call) : nat :=
  match tr with
  | [] => O
  | (_, EvFind _) :: r => S (finds r)
  | _ :: r => finds r
  end.

(** A store or queue call, as opposed to a sleep or a log line. *)
Definition is_call (e : Event) : bool :=
  match e with
  | EvFind _ | EvSend _ _ | EvUpdate _ _ => true
  | EvSleep _ | EvLog _ => false
  end.

(** The urls carried by a list of batches. *)
Definition bodies (batches : list (list Entry)) : list string :=
  flat_map (map MessageBody) batches.

(** ** The schedule of a batch *)

(** What section 4.3 describes for [k] failed attempts in a row, the first of
    them numbered [j + 1] and made at instant [t]: each is followed by a sleep
    of [RetryBackoff] times its number. Returns the calls and the instant at
    which the last sleep ends. *)
Fixpoint spec_failed_attempts (k : nat) (j t : Z) (batch : list Entry)
  : list Call * Z :=
  match k with
  | O => ([], t)
  | S k' =>
      let d := RetryBackoff * (j + 1) in
      let '(evs, t') := spec_failed_attempts k' (j + 1) (t + d) batch in
      ((t, EvSend batch false) :: (t, EvLog (LogAttemptFailed (j + 1)))
         :: (t, EvSleep d) :: evs, t')
  end.

(** The time the retry loop can spend sleeping: the backoffs of [remaining]
    failed attempts, the first numbered [attempt + 1]. *)
Fixpoint backoff_total (remaining : nat) (attempt : Z) : Z :=
  match remaining with
  | O => 0
  | S r => RetryBackoff * (attempt + 1) + backoff_total r (attempt + 1)
  end.

(** The longest a batch can sleep, and the longest a tick can. *)
Definition BatchMax : Z := backoff_total (Z.to_nat RetryAttempts) 0.
Definition TickMax : Z := ((DatabaseLimit + BatchSize - 1) / BatchSize) * BatchMax.

(** ** Chunks *)

(** Section 4.4, step 2, in the spec's words: consecutive chunks of at most
    [n] records, in order, the last one possibly smaller. *)
Equations? spec_chunks {A : Type} (n : nat) (l : list A) : list (list A)
  by wf (length l) lt :=
  spec_chunks n [] := [];
  spec_chunks O (x :: r) := [x :: r];
  spec_chunks (S m) (x :: r) := (x :: firstn m r) :: spec_chunks (S m) (skipn m r).
Proof. rewrite length_skipn. simpl. lia. Qed.

(** One chunk of section 4.4, step 3: build the entries of its records, send
    them as one batch, mark on success. *)
Definition entry_of (url : URLs) : M Entry :=
  mc <- incr_messageCount ;; ret (new_entry mc url).

Definition dispatch_chunk (recs : list URLs) : M unit :=
  batch <- mapM entry_of recs ;; flush batch.

(** The entries the loop builds for [urls] when the counter starts at [mc],
    and the value of the counter afterwards. *)
Fixpoint entries_from (mc : Z) (urls : list URLs) : list Entry :=
  match urls with
  | [] => []
  | u :: r => new_entry (wrap64 (mc + 1)) u :: entries_from (wrap64 (mc + 1)) r
  end.

Fixpoint count_from (mc : Z) (urls : list URLs) : Z :=
  match urls with
  | [] => mc
  | _ :: r => count_from (wrap64 (mc + 1)) r
  end.

(** The calls of one chunk of records: between one and [RetryAttempts]
    submissions of one batch carrying the urls of the chunk, in order; then,
    if the queue accepted, one mark call per record, keyed on its url, and
    none otherwise. *)
Definition chunk_segment (recs : list URLs) (seg : list Call) : Prop :=
  exists batch,
    map MessageBody batch = map URL recs /\
    (1 <= sends seg <= Z.to_nat RetryAttempts)%nat /\
    Forall (fun b => b = batch) (submitted seg) /\
    finds seg = O /\
    ((accepted seg = [batch] /\ map fst (updates seg) = map URL recs) \/
     (accepted seg = [] /\ updates seg = [])).

(** ** Marking *)

(** The effect on the table of a sequence of mark calls: each executed call
    marks every row whose url is the one it is keyed on. *)
Definition apply_updates (us : list (string * bool)) (t : list Row) : list Row :=
  fold_left (fun t (c : string * bool) => if snd c then map (mark (fst c)) t else t) us t.

(** The urls of the mark calls the store executed. *)
Definition executed (us : list (string * bool)) : list string :=
  map fst (filter snd us).

(** A row once every row carrying one of [urls] has been marked. *)
Definition marked_by (urls : list string) (r : Row) : Row :=
  if existsb (String.eqb (row_url r)) urls
  then mkRow (row_id r) (row_url r) true
  else r.

(** Every mark call of the trace comes after a submission the queue
    accepted, of a batch that carries its url. *)
Definition marks_follow_acceptance (tr : list Call) : Prop :=
  forall pre t u ok post,
    tr = pre ++ (t, EvUpdate u ok) :: post ->
    exists t' b, In (t', EvSend b true) pre /\ In u (map MessageBody b).

(** ** Concrete inputs *)

(** An unprocessed row numbered [i], with a url of its own. *)
Definition row_n (i : Z) : Row := mkRow i (Sprintf_d "https://example.com/" i) false.

Fixpoint rows (from : Z) (n : nat) : list Row :=
  match n with
  | O => []
  | S n' => row_n from :: rows (from + 1) n'
  end.

(** A row numbered [i] that carries the url of the row numbered [j]. *)
Definition row_dup (i j : Z) : Row := mkRow i (row_url (row_n j)) false.

(** A fresh process: counter, clock and call numbers at zero. *)
Definition start (t : list Row) : State := mkState t 0 0 0 0.

(** Store and queue always answer, nobody cancels. *)
Definition env_ok : Env := mkEnv (fun _ _ => true) (fun _ => true) None.

(** The queue rejects every submission. *)
Definition env_rejecting (cancel : option Z) : Env :=
  mkEnv (fun _ _ => false) (fun _ => true) cancel.

(** The queue accepts only the submissions whose number is in [oks]. *)
Definition env_accepting (oks : list nat) : Env :=
  mkEnv (fun n _ => existsb (Nat.eqb n) oks) (fun _ => true) None.

(** The store fails on its first call. *)
Definition env_store_down : Env :=
  mkEnv (fun _ _ => true) (fun n => negb (Nat.eqb n 0)) None.

(** A batch of two entries. *)
Definition batch2 : list Entry := entries_from 0 (map scan (rows 1 2)).

(** ** Four sentences of the specification, as written *)

(** Section 4.3: a cancellation that fires during a backoff sleep makes the
    sender return failure before the window ends, with no submission issued
    from then on. *)
Definition abandons_on_cancel (env : Env) (batch : list Entry) (s : State) : Prop :=
  forall c t d,
    cancel_at env = Some c ->
    In (t, EvSleep d) (trace_of (sendBatch batch env s)) ->
    t < c < t + d ->
    result_of (sendBatch batch env s) <> None /\
    now (state_of (sendBatch batch env s)) < t + d /\
    (forall t' b ok, In (t', EvSend b ok) (trace_of (sendBatch batch env s)) -> t' < c).

(** Section 4.4, step 5: the polling sleep ends early when the cancellation
    comes during it. *)
Definition wakes_on_cancel (env : Env) (fuel : nat) (s : State) : Prop :=
  forall c t,
    cancel_at env = Some c ->
    result_of (producer fuel env s) = Stopped ->
    In (t, EvSleep PollingInterval) (trace_of (producer fuel env s)) ->
    t < c < t + PollingInterval ->
    now (state_of (producer fuel env s)) < t + PollingInterval.

(** Section 8, cooperative shutdown: no store or queue call starts after the
    cancellation. *)
Definition quiet_after_cancel (env : Env) (fuel : nat) (s : State) : Prop :=
  forall c t e,
    cancel_at env = Some c ->
    In (t, e) (trace_of (producer fuel env s)) ->
    c < t ->
    is_call e = false.

(** Section 8, cooperative shutdown: the loop has left one polling interval
    and one backoff cycle after the cancellation. *)
Definition exits_in_time (env : Env) (fuel : nat) (s : State) : Prop :=
  forall c,
    cancel_at env = Some c ->
    now s <= c ->
    result_of (producer fuel env s) = Stopped ->
    now (state_of (producer fuel env s)) <= c + PollingInterval + BatchMax.

(** Section 8, no premature marking: a record is marked in a tick exactly
    when it belongs to a chunk the queue accepted. *)
Definition marks_exactly_accepted_chunks (env : Env) (s : State) : Prop :=
  forall r,
    In r (table s) -> row_processed r = false ->
    (In (mkRow (row_id r) (row_url r) true) (table (state_of (processURLs env s))) <->
     exists recs,
       In recs (spec_chunks (Z.to_nat BatchSize) (fetched s)) /\
       In (scan r) recs /\
       In (map URL recs)
          (map (map MessageBody) (accepted (trace_of (processURLs env s))))).

(** Section 8, partial failure isolation: the records of a chunk whose
    submission failed are not marked. *)
Definition isolates_failed_chunk (env : Env) (s : State) : Prop :=
  forall recs r,
    In recs (spec_chunks (Z.to_nat BatchSize) (fetched s)) ->
    ~ In (map URL recs)
         (map (map MessageBody) (accepted (trace_of (processURLs env s)))) ->
    In (scan r) recs -> In r (table s) -> row_processed r = false ->
    In r (table (state_of (processURLs env s))).

(** ** More to state properties with *)

(** The rows still to deliver, in the order of the table. *)
Definition unprocessed (s : State) : list Row :=
  filter (fun r => negb (row_processed r)) (table s).

(** The batches the loop builds for the chunks [cs] when the counter starts
    at [mc]. *)
Fixpoint entries_of_chunks (mc : Z) (cs : list (list URLs)) : list (list Entry) :=
  match cs with
  | [] => []
  | c :: r => entries_from mc c :: entries_of_chunks (count_from mc c) r
  end.

(** A sleep of the trace is one of the backoffs of [sendBatch]. *)
Definition backoff_event (c : Call) : Prop :=
  match snd c with
  | EvSleep d => exists k, 1 <= k <= RetryAttempts /\ d = RetryBackoff * k
  | _ => True
  end.

(** A row keeps its id and its url, and stays marked once it is. *)
Definition row_kept (r r' : Row) : Prop :=
  row_id r' = row_id r /\ row_url r' = row_url r /\
  (row_processed r = true -> row_processed r' = true).



(** The instants of the store reads of a trace. *)
Fixpoint find_times (tr : list Call) : list Z :=
  match tr with
  | [] => []
  | (t, EvFind _) :: r => t :: find_times r
  | _ :: r => find_times r
  end.

(** Successive instants at least [d] apart. *)
Fixpoint spaced (d : Z) (l : list Z) : Prop :=
  match l with
  | t1 :: (t2 :: _) as r => t1 + d <= t2 /\ spaced d r
  | _ => True
  end.

(** * Properties *)

(** ** Arithmetic of the constants *)

Arguments wrap64 : simpl never.
Arguments RetryBackoff : simpl never.
Arguments PollingInterval : simpl never.

Lemma wrap64_small (z : Z) : - 2 ^ 63 <= z < 2 ^ 63 -> wrap64 z = z.
Proof.
  intros Hz. unfold wrap64.
  rewrite Z.mod_small by lia. lia.
Qed.

Lemma RetryBackoff_val : RetryBackoff = 2000000000.
Proof. reflexivity. Qed.

Lemma PollingInterval_val : PollingInterval = 10000000000.
Proof. reflexivity. Qed.

(** The backoff after the attempt numbered [k] (from 1) does not overflow. *)
Lemma backoff_exact (attempt : Z) :
  0 <= attempt < 1000 ->
  wrap64 (attempt + 1) = attempt + 1 /\
  wrap64 (RetryBackoff * (attempt + 1)) = RetryBackoff * (attempt + 1) /\
  Z.max 0 (RetryBackoff * (attempt + 1)) = RetryBackoff * (attempt + 1).
Proof.
  intros Ha. rewrite RetryBackoff_val.
  split; [apply wrap64_small; lia | split].
  - apply wrap64_small. lia.
  - lia.
Qed.

(** ** Deciding membership *)

(** A list none of whose elements passes a test does not contain an element
    that passes it. *)
Lemma not_In_existsb {A} (p : A -> bool) (x : A) (l : list A) :
  existsb p l = false -> p x = true -> ~ In x l.
Proof.
  intros Hl Hx Hin.
  assert (H : existsb p l = true) by (apply existsb_exists; exists x; auto).
  congruence.
Qed.

Lemma all_executed (us : list (string * bool)) :
  forallb snd us = true -> forall u, ~ In (u, false) us.
Proof.
  intros H u Hin. rewrite forallb_forall in H.
  specialize (H _ Hin). discriminate H.
Qed.

(** Refutes [H : In x l] for a computed [l] with a test [p] that [x] passes
    and no element of [l] does; [l] is evaluated once, by the virtual
    machine. *)
Ltac refute_In H p :=
  match type of H with
  | @In ?A ?x ?l =>
      let E := fresh "E" in
      assert (E : existsb p l = false) by (vm_compute; reflexivity);
      exact (not_In_existsb p x l E eq_refl H)
  end.

(** ** [sendBatch]: the schedule of a batch *)

Lemma sends_app (t1 t2 : list Call) : sends (t1 ++ t2) = (sends t1 + sends t2)%nat.
Proof.
  induction t1 as [|[t e] t1 IH]; simpl; [reflexivity|].
  destruct e; simpl; rewrite IH; reflexivity.
Qed.

Lemma spec_failed_attempts_sends k j t batch :
  sends (fst (spec_failed_attempts k j t batch)) = k.
Proof.
  revert j t. induction k as [|k IH]; intros j t; cbn [spec_failed_attempts].
  - reflexivity.
  - specialize (IH (j + 1) (t + RetryBackoff * (j + 1))).
    destruct (spec_failed_attempts k (j + 1) (t + RetryBackoff * (j + 1)) batch).
    cbn [fst sends] in *. congruence.
Qed.

(** [k] rejected attempts, then one accepted, with attempts to spare. *)
Lemma sendBatch_loop_accepted env batch :
  forall (k remaining : nat) (attempt : Z) (s : State),
    (k < remaining)%nat ->
    0 <= attempt -> attempt + Z.of_nat remaining < 1000 ->
    (forall j f, (j < k)%nat -> sqs_ok env (sqs_calls s + j) f = false) ->
    (forall f, sqs_ok env (sqs_calls s + k) f = true) ->
    let '(evs, t') := spec_failed_attempts k attempt (now s) batch in
    sendBatch_loop remaining attempt batch env s =
      (None, sent s t' (S (sqs_calls s + k)),
       evs ++ [(t', EvSend batch true);
               (t', EvLog (LogSent (Z.of_nat (length batch))))]).
Proof.
  induction k as [|k IH]; intros remaining attempt s Hk Ha Hb Hfail Hok.
  - destruct remaining as [|r]; [lia|].
    assert (H0 : forall f, sqs_ok env (sqs_calls s) f = true)
      by (intros f; rewrite <- (Nat.add_0_r (sqs_calls s)); apply Hok).
    cbn [spec_failed_attempts sendBatch_loop].
    unfold bind, SendMessageBatch, log_Printf, ret. rewrite H0.
    unfold sent. rewrite Nat.add_0_r. reflexivity.
  - destruct remaining as [|r]; [lia|].
    destruct (backoff_exact attempt ltac:(lia)) as (E1 & E2 & E3).
    specialize (IH r (attempt + 1)
                  (sent s (now s + RetryBackoff * (attempt + 1)) (S (sqs_calls s)))).
    cbn [now sqs_calls sent Nat.add] in IH. cbn [spec_failed_attempts].
    destruct (spec_failed_attempts k (attempt + 1)
                (now s + RetryBackoff * (attempt + 1)) batch) as [evs t'].
    assert (H0 : forall f, sqs_ok env (sqs_calls s) f = false)
      by (intros f; rewrite <- (Nat.add_0_r (sqs_calls s)); apply Hfail; lia).
    cbn [sendBatch_loop]. unfold bind at 1. unfold SendMessageBatch at 1.
    rewrite H0.
    unfold bind, log_Printf, time_Sleep. cbn [now table messageCount sqs_calls db_calls].
    rewrite E1, E2, E3.
    unfold sent in IH. rewrite IH; try lia.
    + unfold sent. cbn [table messageCount db_calls app]. rewrite Nat.add_succ_r. reflexivity.
    + intros j f Hj. rewrite <- Nat.add_succ_r. apply Hfail. lia.
    + intros f. rewrite <- Nat.add_succ_r. apply Hok.
Qed.

(** Every attempt rejected: the loop runs out and the error is returned. *)
Lemma sendBatch_loop_exhausted env batch :
  forall (remaining : nat) (attempt : Z) (s : State),
    0 <= attempt -> attempt + Z.of_nat remaining < 1000 ->
    (forall j f, (j < remaining)%nat -> sqs_ok env (sqs_calls s + j) f = false) ->
    let '(evs, t') := spec_failed_attempts remaining attempt (now s) batch in
    sendBatch_loop remaining attempt batch env s =
      (Some errFailedAfter, sent s t' (sqs_calls s + remaining), evs).
Proof.
  induction remaining as [|r IH]; intros attempt s Ha Hb Hfail.
  - simpl. unfold ret, sent. rewrite Nat.add_0_r. destruct s; reflexivity.
  - destruct (backoff_exact attempt ltac:(lia)) as (E1 & E2 & E3).
    specialize (IH (attempt + 1)
                  (sent s (now s + RetryBackoff * (attempt + 1)) (S (sqs_calls s)))).
    cbn [now sqs_calls sent Nat.add] in IH. cbn [spec_failed_attempts].
    destruct (spec_failed_attempts r (attempt + 1)
                (now s + RetryBackoff * (attempt + 1)) batch) as [evs t'].
    assert (H0 : forall f, sqs_ok env (sqs_calls s) f = false)
      by (intros f; rewrite <- (Nat.add_0_r (sqs_calls s)); apply Hfail; lia).
    cbn [sendBatch_loop]. unfold bind at 1. unfold SendMessageBatch at 1.
    rewrite H0.
    unfold bind, log_Printf, time_Sleep. cbn [now table messageCount sqs_calls db_calls].
    rewrite E1, E2, E3.
    unfold sent in IH. rewrite IH; try lia.
    + unfold sent. cbn [table messageCount db_calls app]. rewrite Nat.add_succ_r. reflexivity.
    + intros j f Hj. rewrite <- Nat.add_succ_r. apply Hfail. lia.
Qed.

(** ** Observing a trace *)

Lemma submitted_app t1 t2 : submitted (t1 ++ t2) = submitted t1 ++ submitted t2.
Proof.
  induction t1 as [|[t e] t1 IH]; simpl; [reflexivity|].
  destruct e; simpl; rewrite IH; reflexivity.
Qed.

Lemma accepted_app t1 t2 : accepted (t1 ++ t2) = accepted t1 ++ accepted t2.
Proof.
  induction t1 as [|[t e] t1 IH]; simpl; [reflexivity|].
  destruct e as [| b [|] | | |]; simpl; rewrite IH; reflexivity.
Qed.

Lemma updates_app t1 t2 : updates (t1 ++ t2) = updates t1 ++ updates t2.
Proof.
  induction t1 as [|[t e] t1 IH]; simpl; [reflexivity|].
  destruct e; simpl; rewrite IH; reflexivity.
Qed.

Lemma finds_app t1 t2 : finds (t1 ++ t2) = (finds t1 + finds t2)%nat.
Proof.
  induction t1 as [|[t e] t1 IH]; simpl; [reflexivity|].
  destruct e; simpl; rewrite IH; reflexivity.
Qed.

Lemma sends_submitted tr : sends tr = length (submitted tr).
Proof.
  induction tr as [|[t e] tr IH]; simpl; [reflexivity|].
  destruct e; simpl; rewrite IH; reflexivity.
Qed.

Lemma accepted_In tr b : In b (accepted tr) <-> exists t, In (t, EvSend b true) tr.
Proof.
  induction tr as [|[t e] tr IH]; simpl.
  - split; [tauto | intros [t []]].
  - destruct e as [| b' [|] | | |]; simpl; rewrite ?IH; split;
      try (intros [t' H]; exists t'; auto; fail);
      try (intros [t' [H|H]]; [discriminate H | eauto]; fail).
    + intros [H | [t' H]]; [subst; eauto | eauto].
    + intros [t' [H|H]]; [inversion H; auto | eauto].
Qed.

Lemma updates_In tr u ok : In (u, ok) (updates tr) <-> exists t, In (t, EvUpdate u ok) tr.
Proof.
  induction tr as [|[t e] tr IH]; simpl.
  - split; [tauto | intros [t []]].
  - destruct e; simpl; rewrite ?IH; split;
      try (intros [t' H]; exists t'; auto; fail);
      try (intros [t' [H|H]]; [discriminate H | eauto]; fail).
    + intros [H | [t' H]]; [inversion H; subst; eauto | eauto].
    + intros [t' [H|H]]; [inversion H; auto | eauto].
Qed.

(** ** [sendBatch] under any replies *)

(** The retry loop touches neither the table nor the counter, makes no store
    call, never moves the clock back, submits only its own batch, at most
    once per iteration, and returns [nil] exactly when the queue accepted. *)
Lemma sendBatch_loop_any env batch :
  forall (remaining : nat) (attempt : Z) (s : State),
    let '(err, s', tr) := sendBatch_loop remaining attempt batch env s in
    table s' = table s /\ messageCount s' = messageCount s /\
    db_calls s' = db_calls s /\ now s <= now s' /\
    (sends tr <= remaining)%nat /\ ((0 < remaining)%nat -> (1 <= sends tr)%nat) /\
    Forall (fun b => b = batch) (submitted tr) /\
    updates tr = [] /\ finds tr = O /\
    accepted tr = (match err with None => [batch] | Some _ => [] end).
Proof.
  induction remaining as [|r IH]; intros attempt s.
  - simpl. repeat split; auto; lia.
  - cbn [sendBatch_loop]. unfold bind at 1. unfold SendMessageBatch at 1.
    destruct (sqs_ok env (sqs_calls s) (done_at env (now s))).
    + unfold bind, log_Printf, ret. simpl. repeat split; auto; lia.
    + unfold bind, log_Printf, time_Sleep.
      cbn [now table messageCount sqs_calls db_calls].
      match goal with |- context [sendBatch_loop r ?a batch env ?s1] =>
        specialize (IH a s1); destruct (sendBatch_loop r a batch env s1)
          as [[err s'] tr] end.
      cbn [now table messageCount sqs_calls db_calls] in IH.
      destruct IH as (H1 & H2 & H3 & H4 & H5 & H6 & H7 & H8 & H9 & H10).
      simpl. repeat split; auto; try lia.
Qed.

Lemma sendBatch_any env batch s :
  let '(err, s', tr) := sendBatch batch env s in
  table s' = table s /\ messageCount s' = messageCount s /\
  db_calls s' = db_calls s /\ now s <= now s' /\
  (1 <= sends tr <= Z.to_nat RetryAttempts)%nat /\
  Forall (fun b => b = batch) (submitted tr) /\
  updates tr = [] /\ finds tr = O /\
  accepted tr = (match err with None => [batch] | Some _ => [] end).
Proof.
  unfold sendBatch.
  pose proof (sendBatch_loop_any env batch (Z.to_nat RetryAttempts) 0 s) as H.
  destruct (sendBatch_loop (Z.to_nat RetryAttempts) 0 batch env s) as [[err s'] tr].
  destruct H as (H1 & H2 & H3 & H4 & H5 & H6 & H7 & H8 & H9 & H10).
  repeat split; auto. apply H6. vm_compute. lia.
Qed.

(** ** Marking *)

Lemma apply_updates_app us1 us2 t :
  apply_updates (us1 ++ us2) t = apply_updates us2 (apply_updates us1 t).
Proof. unfold apply_updates. apply fold_left_app. Qed.

Lemma split_at_update (t1 t2 pre post : list Call) (c : Call) :
  t1 ++ t2 = pre ++ c :: post ->
  (exists l, t1 = pre ++ c :: l /\ post = l ++ t2) \/
  (exists l, pre = t1 ++ l /\ t2 = l ++ c :: post).
Proof.
  intros H. apply app_eq_app in H. destruct H as [l [[H1 H2] | [H1 H2]]].
  - destruct l as [|c' l].
    + right. exists []. rewrite app_nil_r in H1. simpl in H2. subst. split.
      * rewrite app_nil_r. reflexivity.
      * reflexivity.
    + left. inversion H2; subst. exists l. split; reflexivity.
  - right. exists l. split; assumption.
Qed.

Lemma updates_nil_no_update tr pre t u ok post :
  updates tr = [] -> tr <> pre ++ (t, EvUpdate u ok) :: post.
Proof.
  intros Hu E. subst. rewrite updates_app in Hu. simpl in Hu.
  destruct (updates pre); discriminate.
Qed.

Lemma marks_follow_acceptance_app t1 t2 :
  marks_follow_acceptance t1 -> marks_follow_acceptance t2 ->
  marks_follow_acceptance (t1 ++ t2).
Proof.
  intros H1 H2 pre t u ok post E.
  apply split_at_update in E. destruct E as [[l [E1 E2]] | [l [E1 E2]]].
  - apply (H1 _ _ _ _ _ E1).
  - destruct (H2 _ _ _ _ _ E2) as (t' & b & Hin & Hu).
    exists t', b. split; [subst; apply in_or_app; auto | assumption].
Qed.

Lemma marks_follow_acceptance_quiet tr :
  updates tr = [] -> marks_follow_acceptance tr.
Proof.
  intros Hu pre t u ok post E. exfalso.
  exact (updates_nil_no_update _ _ _ _ _ _ Hu E).
Qed.

(** The inner loop [for _, entry := range batch]: one mark call per entry,
    keyed on the entry's body, and nothing else. *)
Lemma mark_entries_any env :
  forall (batch : list Entry) (s : State),
    let '(_, s', tr) :=
      forM_ (fun entry => Update_processed (MessageBody entry)) batch env s in
    messageCount s' = messageCount s /\ now s' = now s /\
    table s' = apply_updates (updates tr) (table s) /\
    map fst (updates tr) = map MessageBody batch /\
    submitted tr = [] /\ finds tr = O /\
    Forall (fun c => fst c = now s) tr.
Proof.
  induction batch as [|e batch IH]; intros s.
  - simpl. repeat split; auto.
  - cbn [forM_]. unfold bind at 1. unfold Update_processed at 1.
    match goal with |- context [forM_ _ batch env ?s1] =>
      specialize (IH s1); destruct (forM_ _ batch env s1) as [[[] s'] tr] end.
    cbn [now table messageCount sqs_calls db_calls] in IH.
    destruct IH as (H1 & H2 & H3 & H4 & H5 & H6 & H7).
    cbn [app updates submitted finds map fst]. repeat split; auto.
    f_equal. assumption.
Qed.

(** What one flushed batch does, whatever the replies. *)
Lemma flush_any env batch s :
  let '(_, s', tr) := flush batch env s in
  messageCount s' = messageCount s /\ now s <= now s' /\
  table s' = apply_updates (updates tr) (table s) /\
  (1 <= sends tr <= Z.to_nat RetryAttempts)%nat /\
  Forall (fun b => b = batch) (submitted tr) /\ finds tr = O /\
  ((accepted tr = [batch] /\ map fst (updates tr) = map MessageBody batch) \/
   (accepted tr = [] /\ updates tr = [])) /\
  marks_follow_acceptance tr.
Proof.
  unfold flush, bind.
  pose proof (sendBatch_any env batch s) as H.
  destruct (sendBatch batch env s) as [[err s1] tr1].
  destruct H as (H1 & H2 & H3 & H4 & H5 & H6 & H7 & H8 & H9).
  destruct err as [e|].
  - unfold log_Printf.
    rewrite sends_app, submitted_app, accepted_app, updates_app, finds_app.
    cbn [sends submitted accepted updates finds]. rewrite !app_nil_r, H7, H8, H9.
    rewrite Nat.add_0_r. repeat split; auto; try lia.
    apply marks_follow_acceptance_quiet. rewrite updates_app, H7. reflexivity.
  - pose proof (mark_entries_any env batch s1) as G.
    destruct (forM_ (fun entry => Update_processed (MessageBody entry)) batch env s1)
      as [[[] s2] tr2].
    destruct G as (G1 & G2 & G3 & G4 & G5 & G6 & G7).
    rewrite sends_app, submitted_app, accepted_app, updates_app, finds_app.
    rewrite H7, H8, H9, G5, G6. rewrite (sends_submitted tr2), G5.
    cbn [app length]. rewrite Nat.add_0_r, app_nil_r.
    assert (Ha2 : accepted tr2 = []).
    { clear - G5. induction tr2 as [|[t e] tr2 IH]; [reflexivity|].
      destruct e as [| b [|] | | |]; simpl in *; try discriminate; auto. }
    rewrite Ha2. repeat split; auto; try lia; try congruence.
    intros pre t u ok post E.
    apply split_at_update in E. destruct E as [[l [E1 E2]] | [l [E1 E2]]].
    + exfalso. exact (updates_nil_no_update _ _ _ _ _ _ H7 E1).
    + assert (Hb : In batch (accepted tr1)) by (rewrite H9; left; reflexivity).
      apply accepted_In in Hb. destruct Hb as [t' Hb].
      exists t', batch. split.
      * subst pre. apply in_or_app. left. assumption.
      * rewrite <- G4. apply in_map_iff. exists (u, ok). split; [reflexivity|].
        apply updates_In. exists t. subst tr2. apply in_or_app. right. left. reflexivity.
Qed.

(** ** The batching loop *)

Lemma counted_same s : counted s (messageCount s) = s.
Proof. destruct s; reflexivity. Qed.

Lemma entries_from_app mc l1 l2 :
  entries_from mc (l1 ++ l2) = entries_from mc l1 ++ entries_from (count_from mc l1) l2.
Proof.
  revert mc. induction l1 as [|u l1 IH]; intros mc; simpl; [reflexivity|].
  rewrite IH. reflexivity.
Qed.

Lemma count_from_app mc l1 l2 :
  count_from mc (l1 ++ l2) = count_from (count_from mc l1) l2.
Proof.
  revert mc. induction l1 as [|u l1 IH]; intros mc; simpl; [reflexivity|].
  apply IH.
Qed.

Lemma entries_from_length mc l : length (entries_from mc l) = length l.
Proof. revert mc. induction l as [|u l IH]; intros mc; simpl; auto. Qed.

Lemma entries_from_bodies mc l : map MessageBody (entries_from mc l) = map URL l.
Proof.
  revert mc. induction l as [|u l IH]; intros mc; simpl; [reflexivity|].
  rewrite IH. reflexivity.
Qed.

Lemma mapM_entry_of env urls :
  forall s, mapM entry_of urls env s =
            (entries_from (messageCount s) urls,
             counted s (count_from (messageCount s) urls), []).
Proof.
  induction urls as [|u urls IH]; intros s.
  - simpl. unfold ret. rewrite counted_same. reflexivity.
  - cbn [mapM]. unfold bind at 1. unfold entry_of at 1.
    unfold bind at 1. unfold incr_messageCount, ret at 1.
    unfold bind. rewrite IH. unfold ret. reflexivity.
Qed.

Lemma dispatch_chunk_run env recs s :
  dispatch_chunk recs env s =
  flush (entries_from (messageCount s) recs) env
        (counted s (count_from (messageCount s) recs)).
Proof.
  unfold dispatch_chunk, bind. rewrite mapM_entry_of.
  destruct (flush _ env _) as [[[] s2] t2]. reflexivity.
Qed.

(** While the batch is not full and records remain after [pre], the loop
    only appends. *)
Lemma range_urls_fill env n rest :
  rest <> [] ->
  forall pre batch i s,
    (length batch + length pre < Z.to_nat BatchSize)%nat ->
    i + Z.of_nat (length pre) + Z.of_nat (length rest) = n ->
    range_urls n i (pre ++ rest) batch env s =
    range_urls n (i + Z.of_nat (length pre)) rest
               (batch ++ entries_from (messageCount s) pre) env
               (counted s (count_from (messageCount s) pre)).
Proof.
  intros Hrest. induction pre as [|u pre IH]; intros batch i s Hlen Hn.
  - simpl. rewrite app_nil_r, counted_same, Z.add_0_r. reflexivity.
  - assert (Hr : (0 < length rest)%nat) by (destruct rest; [congruence | simpl; lia]).
    cbn [app range_urls]. unfold bind at 1. unfold incr_messageCount at 1.
    rewrite length_app. cbn [length] in *.
    replace (Z.of_nat (length batch + 1) =? BatchSize) with false
      by (symmetry; apply Z.eqb_neq; change BatchSize with 10 in *; lia).
    replace (i =? n - 1) with false by (symmetry; apply Z.eqb_neq; lia).
    cbn [orb].
    rewrite IH by (rewrite ?length_app; cbn [length]; lia).
    cbn [messageCount entries_from count_from]. rewrite <- app_assoc. cbn [app].
    replace (i + 1 + Z.of_nat (length pre)) with (i + Z.of_nat (S (length pre))) by lia.
    unfold counted. cbn [table now sqs_calls db_calls].
    destruct (range_urls n _ rest _ env _) as [[[] s2] t2]. reflexivity.
Qed.

(** When the batch gets full, or at the last record, the loop flushes and
    starts an empty batch. *)
Lemma range_urls_flush env n u rest batch i s :
  (S (length batch) = Z.to_nat BatchSize \/ rest = []) ->
  i + 1 + Z.of_nat (length rest) = n ->
  range_urls n i (u :: rest) batch env s =
  (flush (batch ++ [new_entry (wrap64 (messageCount s + 1)) u]) ;;;
   range_urls n (i + 1) rest []) env (counted s (wrap64 (messageCount s + 1))).
Proof.
  intros Hc Hn. cbn [range_urls]. unfold bind at 1. unfold incr_messageCount at 1.
  replace ((Z.of_nat (length (batch ++ [new_entry (wrap64 (messageCount s + 1)) u]))
              =? BatchSize) || (i =? n - 1)) with true.
  - unfold counted.
    destruct ((flush _ ;;; range_urls n (i + 1) rest []) env _) as [[[] s2] t2].
    reflexivity.
  - symmetry. apply orb_true_iff. rewrite length_app. cbn [length].
    destruct Hc as [Hc | Hc].
    + left. apply Z.eqb_eq. change BatchSize with 10 in *. lia.
    + right. apply Z.eqb_eq. subst rest. simpl in Hn. lia.
Qed.

(** The loop of [processURLs] handles the chunks of the fetched records one
    after the other, each exactly once. *)
Lemma range_urls_chunks env n :
  forall (k : nat) (urls : list URLs) (i : Z) (s : State),
    (length urls <= k)%nat ->
    i + Z.of_nat (length urls) = n ->
    range_urls n i urls [] env s =
    forM_ dispatch_chunk (spec_chunks (Z.to_nat BatchSize) urls) env s.
Proof.
  induction k as [|k IH]; intros urls i s Hk Hn.
  - destruct urls; [|simpl in Hk; lia]. simp spec_chunks. reflexivity.
  - destruct urls as [|x r]; [simp spec_chunks; reflexivity|].
    change (Z.to_nat BatchSize) with 10%nat. simp spec_chunks.
    set (c := x :: firstn 9 r). set (rest2 := skipn 9 r).
    assert (Hurls : x :: r = c ++ rest2)
      by (unfold c, rest2; cbn [app]; rewrite firstn_skipn; reflexivity).
    assert (Hc : c <> []) by (unfold c; discriminate).
    destruct (exists_last Hc) as (pre & u & Hpre).
    assert (Hlc : length c = S (length pre))
      by (rewrite Hpre, length_app; simpl; lia).
    assert (Hlc2 : (length c <= 10)%nat)
      by (unfold c; cbn [length]; rewrite length_firstn; lia).
    assert (Hl2 : length r = (length (firstn 9 r) + length rest2)%nat)
      by (unfold rest2; rewrite <- length_app, firstn_skipn; reflexivity).
    assert (Hfull : rest2 <> [] -> length pre = 9%nat).
    { intros Hne. unfold rest2 in Hne.
      assert (9 < length r)%nat.
      { destruct (Nat.le_gt_cases (length r) 9) as [Hle|]; [|assumption].
        rewrite skipn_all2 in Hne by assumption. congruence. }
      unfold c in Hlc. cbn [length] in Hlc. rewrite length_firstn in Hlc. lia. }
    rewrite Hurls in Hn |- *. rewrite Hpre in Hn |- *.
    rewrite <- app_assoc. cbn [app].
    rewrite !length_app in Hn. cbn [length] in Hn.
    rewrite range_urls_fill; [ | discriminate
      | change (Z.to_nat BatchSize) with 10%nat; simpl; lia
      | simpl; lia ].
    cbn [app].
    rewrite range_urls_flush;
      [ | rewrite entries_from_length; change (Z.to_nat BatchSize) with 10%nat;
          destruct rest2; [right; reflexivity | left; rewrite Hfull by discriminate; reflexivity]
        | lia ].
    cbn [forM_]. unfold bind at 2. rewrite dispatch_chunk_run.
    rewrite entries_from_app, count_from_app. cbn [entries_from count_from].
    unfold bind at 1. unfold counted at 1 2. cbn [table messageCount now sqs_calls db_calls].
    unfold counted.
    destruct (flush _ env _) as [[[] s1] t1].
    rewrite (IH rest2 _ s1); [reflexivity | | lia].
    unfold rest2. rewrite length_skipn. simpl in Hk. lia.
Qed.

(** ** The chunks *)

Lemma chunks_concat {A} (n : nat) (l : list A) : concat (spec_chunks n l) = l.
Proof.
  funelim (spec_chunks n l); simp spec_chunks; cbn [concat app].
  - reflexivity.
  - rewrite app_nil_r. reflexivity.
  - rewrite H. rewrite firstn_skipn. reflexivity.
Qed.

Lemma chunks_sizes {A} (n : nat) (l : list A) :
  (0 < n)%nat -> Forall (fun c => (1 <= length c <= n)%nat) (spec_chunks n l).
Proof.
  funelim (spec_chunks n l); simp spec_chunks; intros Hn.
  - constructor.
  - lia.
  - constructor; [|auto].
    cbn [length]. rewrite length_firstn. lia.
Qed.

(** Only the last chunk can be short. *)
Lemma chunks_full {A} (n : nat) (l : list A) :
  forall pre c, spec_chunks n l = pre ++ [c] -> Forall (fun c' => length c' = n) pre.
Proof.
  funelim (spec_chunks n l); simp spec_chunks; intros pre c E.
  - destruct pre; discriminate.
  - destruct pre as [|p pre]; [constructor|].
    inversion E. destruct pre; discriminate.
  - destruct pre as [|p pre]; [constructor|].
    inversion E; subst. constructor.
    + destruct (Nat.le_gt_cases (length r) m) as [Hle | Hgt].
      * rewrite skipn_all2 in H2 by assumption. simp spec_chunks in H2.
        destruct pre; discriminate.
      * cbn [length]. rewrite length_firstn. lia.
    + eapply H. eassumption.
Qed.

Lemma chunks_length {A} (n : nat) (l : list A) :
  (0 < n)%nat -> length (spec_chunks n l) = ((length l + n - 1) / n)%nat.
Proof.
  funelim (spec_chunks n l); simp spec_chunks; intros Hn; cbn [length].
  - rewrite Nat.div_small by lia. reflexivity.
  - lia.
  - rewrite H by lia. rewrite length_skipn.
    destruct (Nat.le_gt_cases (length r) m) as [Hle | Hgt].
    + replace (length r - m)%nat with 0%nat by lia.
      rewrite (Nat.div_small (0 + S m - 1)) by lia.
      apply Nat.div_unique with (r := length r); lia.
    + replace (S (length r) + S m - 1)%nat with (length r - m + S m - 1 + 1 * S m)%nat by lia.
      rewrite Nat.div_add by lia. lia.
Qed.

(** ** One tick *)

Lemma sendBatch_first_try env batch s :
  sqs_ok env (sqs_calls s) (done_at env (now s)) = true ->
  sendBatch batch env s =
  (None, sent s (now s) (S (sqs_calls s)),
   [(now s, EvSend batch true); (now s, EvLog (LogSent (Z.of_nat (length batch))))]).
Proof.
  intros H. unfold sendBatch. change (Z.to_nat RetryAttempts) with 3%nat.
  cbn [sendBatch_loop]. unfold bind, SendMessageBatch, log_Printf, ret.
  rewrite H. reflexivity.
Qed.

Lemma flush_first_try env batch s :
  sqs_ok env (sqs_calls s) (done_at env (now s)) = true ->
  let '(_, _, tr) := flush batch env s in
  sends tr = 1%nat /\ submitted tr = [batch].
Proof.
  intros H. unfold flush, bind. rewrite (sendBatch_first_try _ _ _ H).
  pose proof (mark_entries_any env batch (sent s (now s) (S (sqs_calls s)))) as G.
  destruct (forM_ _ batch env _) as [[[] s2] tr2].
  destruct G as (G1 & G2 & G3 & G4 & G5 & G6 & G7).
  rewrite sends_app, submitted_app, (sends_submitted tr2), G5. split; reflexivity.
Qed.

Lemma dispatch_chunk_any env recs s :
  let '(_, s', tr) := dispatch_chunk recs env s in
  now s <= now s' /\
  table s' = apply_updates (updates tr) (table s) /\
  chunk_segment recs tr /\
  marks_follow_acceptance tr /\
  map fst (updates tr) = bodies (accepted tr) /\
  (sqs_ok env (sqs_calls s) (done_at env (now s)) = true ->
   sends tr = 1%nat /\ map (map MessageBody) (submitted tr) = [map URL recs]).
Proof.
  rewrite dispatch_chunk_run.
  pose proof (flush_any env (entries_from (messageCount s) recs)
                (counted s (count_from (messageCount s) recs))) as H.
  pose proof (flush_first_try env (entries_from (messageCount s) recs)
                (counted s (count_from (messageCount s) recs))) as F.
  destruct (flush _ env _) as [[[] s2] tr].
  cbn [now table sqs_calls counted] in *.
  destruct H as (H1 & H2 & H3 & H4 & H5 & H6 & H7 & H8).
  split; [assumption|]. split; [assumption|]. split; [|split; [assumption|split]].
  - exists (entries_from (messageCount s) recs).
    rewrite entries_from_bodies in *. repeat split; auto; lia.
  - unfold bodies. destruct H7 as [[Ha Hu] | [Ha Hu]]; rewrite Ha, Hu.
    + simpl. rewrite app_nil_r. reflexivity.
    + reflexivity.
  - intros Hok. destruct (F Hok) as [F1 F2]. split; [assumption|].
    rewrite F2. simpl. rewrite entries_from_bodies. reflexivity.
Qed.

Lemma bodies_app b1 b2 : bodies (b1 ++ b2) = bodies b1 ++ bodies b2.
Proof. unfold bodies. apply flat_map_app. Qed.

(** The chunks of a tick, one after the other, whatever the replies. *)
Lemma dispatch_chunks_any env :
  forall (cs : list (list URLs)) (s : State),
    let '(_, s', tr) := forM_ dispatch_chunk cs env s in
    now s <= now s' /\
    table s' = apply_updates (updates tr) (table s) /\
    marks_follow_acceptance tr /\
    map fst (updates tr) = bodies (accepted tr) /\
    finds tr = O /\
    (exists segs, tr = concat segs /\ Forall2 chunk_segment cs segs) /\
    ((forall n f, sqs_ok env n f = true) ->
     sends tr = length cs /\
     map (map MessageBody) (submitted tr) = map (map URL) cs).
Proof.
  induction cs as [|c cs IH]; intros s.
  - simpl. repeat split; auto; try lia.
    + apply marks_follow_acceptance_quiet. reflexivity.
    + exists []. split; [reflexivity | constructor].
  - cbn [forM_]. unfold bind.
    pose proof (dispatch_chunk_any env c s) as H.
    destruct (dispatch_chunk c env s) as [[[] s1] t1].
    specialize (IH s1). destruct (forM_ dispatch_chunk cs env s1) as [[[] s2] t2].
    destruct H as (H1 & H2 & H3 & H4 & H5 & H6).
    destruct IH as (I1 & I2 & I3 & I4 & I5 & (segs & I6 & I7) & I8).
    rewrite updates_app, accepted_app, bodies_app, finds_app, map_app.
    repeat split.
    + lia.
    + rewrite apply_updates_app, <- H2. assumption.
    + apply marks_follow_acceptance_app; assumption.
    + congruence.
    + destruct H3 as (b & _ & _ & _ & Hf & _). rewrite Hf, I5. reflexivity.
    + exists (t1 :: segs). split; [simpl; congruence | constructor; assumption].
    + rewrite sends_app. destruct (H6 (H _ _)) as [E _].
      destruct (I8 H) as [E' _]. simpl. lia.
    + rewrite submitted_app, map_app. destruct (H6 (H _ _)) as [_ E].
      destruct (I8 H) as [_ E']. rewrite E, E'. reflexivity.
Qed.

(** [processURLs], with its loop seen as the chunks of the fetched records. *)
Lemma processURLs_run env s :
  processURLs env s =
  if db_ok env (db_calls s) then
    match fetched s with
    | [] => (tt, queried s,
             [(now s, EvFind (Some [])); (now s, EvLog LogNoURLs)])
    | _ :: _ =>
        let '(u, s', tr) :=
          forM_ dispatch_chunk (spec_chunks (Z.to_nat BatchSize) (fetched s)) env (queried s) in
        (u, s', (now s, EvFind (Some (fetched s)))
                  :: (now s, EvLog (LogProcessing (Z.of_nat (length (fetched s)))))
                  :: tr)
    end
  else (tt, queried s, [(now s, EvFind None); (now s, EvLog LogQueryFailed)]).
Proof.
  unfold processURLs, bind at 1. unfold Find_unprocessed.
  destruct (db_ok env (db_calls s)); [|reflexivity].
  destruct (fetched s) as [|u urls] eqn:E; [reflexivity|].
  replace (Z.of_nat (length (u :: urls)) =? 0) with false
    by (symmetry; apply Z.eqb_neq; simpl; lia).
  unfold bind, log_Printf.
  rewrite (range_urls_chunks env _ (length (u :: urls))) by lia.
  cbn [now queried]. destruct (forM_ _ _ env _) as [[[] s2] t2]. reflexivity.
Qed.

(** One tick, whatever the replies of the store and of the queue. *)
Lemma processURLs_any env s :
  let '(_, s', tr) := processURLs env s in
  now s <= now s' /\
  table s' = apply_updates (updates tr) (table s) /\
  marks_follow_acceptance tr /\
  map fst (updates tr) = bodies (accepted tr) /\
  finds tr = 1%nat.
Proof.
  rewrite processURLs_run.
  destruct (db_ok env (db_calls s)).
  - destruct (fetched s) as [|u urls].
    + simpl. repeat split; auto; try lia.
      apply marks_follow_acceptance_quiet. reflexivity.
    + pose proof (dispatch_chunks_any env
                    (spec_chunks (Z.to_nat BatchSize) (u :: urls)) (queried s)) as H.
      destruct (forM_ _ _ env _) as [[[] s2] t2].
      destruct H as (H1 & H2 & H3 & H4 & H5 & _).
      cbn [now table queried updates accepted finds] in *.
      repeat split; auto.
      apply (marks_follow_acceptance_app [_; _] t2); [|assumption].
      apply marks_follow_acceptance_quiet. reflexivity.
  - simpl. repeat split; auto; try lia.
    apply marks_follow_acceptance_quiet. reflexivity.
Qed.

(** ** The batch sender: retry bound and backoff *)

(** The error is returned only once every iteration has been used. *)
Lemma sendBatch_loop_failed env batch :
  forall (remaining : nat) (attempt : Z) (s : State),
    let '(err, _, tr) := sendBatch_loop remaining attempt batch env s in
    err <> None -> sends tr = remaining.
Proof.
  induction remaining as [|r IH]; intros attempt s.
  - simpl. reflexivity.
  - cbn [sendBatch_loop]. unfold bind at 1. unfold SendMessageBatch at 1.
    destruct (sqs_ok env (sqs_calls s) (done_at env (now s))).
    + unfold bind, log_Printf, ret. intros H. congruence.
    + unfold bind, log_Printf, time_Sleep.
      match goal with |- context [sendBatch_loop r ?a batch env ?s1] =>
        specialize (IH a s1); destruct (sendBatch_loop r a batch env s1)
          as [[err s'] tr] end.
      intros H. simpl. rewrite (IH H). reflexivity.
Qed.

(** An iteration starts with a submission, at the instant it is entered. *)
Lemma sendBatch_loop_first_call env batch r attempt s :
  exists ok, In (now s, EvSend batch ok)
                (snd (sendBatch_loop (S r) attempt batch env s)).
Proof.
  cbn [sendBatch_loop]. unfold bind at 1. unfold SendMessageBatch at 1.
  destruct (sqs_ok env (sqs_calls s) (done_at env (now s))).
  - exists true. destruct (bind _ _ env _) as [[b s2] t2].
    cbn [snd app]. left. reflexivity.
  - exists false. destruct (bind _ _ env _) as [[b s2] t2].
    cbn [snd app]. left. reflexivity.
Qed.

(** Every sleep of the retry loop lasts [RetryBackoff] times the number of
    the attempt that just failed, runs to its end, and is followed by the
    next attempt when one is left. *)
Lemma sendBatch_loop_sleeps env batch :
  forall (remaining : nat) (attempt : Z) (s : State),
    0 <= attempt -> attempt + Z.of_nat remaining < 1000 ->
    let '(_, s', tr) := sendBatch_loop remaining attempt batch env s in
    forall t d, In (t, EvSleep d) tr ->
      t + d <= now s' /\
      exists k, attempt < k <= attempt + Z.of_nat remaining /\
                d = RetryBackoff * k /\
                (k < attempt + Z.of_nat remaining ->
                 exists ok, In (t + d, EvSend batch ok) tr).
Proof.
  induction remaining as [|r IH]; intros attempt s Ha Hb.
  - simpl. intros t d [].
  - destruct (backoff_exact attempt ltac:(lia)) as (E1 & E2 & E3).
    cbn [sendBatch_loop]. unfold bind at 1. unfold SendMessageBatch at 1.
    destruct (sqs_ok env (sqs_calls s) (done_at env (now s))).
    + unfold bind, log_Printf, ret. simpl.
      intros t d [H | [H | []]]; discriminate H.
    + unfold bind, log_Printf, time_Sleep.
      cbn [now table messageCount sqs_calls db_calls].
      rewrite E1, E2, E3.
      set (s1 := mkState (table s) (messageCount s)
                   (now s + RetryBackoff * (attempt + 1)) (S (sqs_calls s)) (db_calls s)).
      specialize (IH (attempt + 1) s1 ltac:(lia) ltac:(lia)).
      pose proof (sendBatch_loop_any env batch r (attempt + 1) s1) as Hany.
      assert (Hnext : (0 < r)%nat ->
                      exists ok, In (now s1, EvSend batch ok)
                                    (snd (sendBatch_loop r (attempt + 1) batch env s1))).
      { destruct r as [|r']; [lia|]. intros _.
        apply sendBatch_loop_first_call. }
      destruct (sendBatch_loop r (attempt + 1) batch env s1) as [[err s'] tr].
      destruct Hany as (_ & _ & _ & Hmono & _).
      subst s1. cbn [now snd] in *. cbn [app].
      intros t d [H | [H | [H | H]]]; try discriminate H.
      * assert (Ht : t = now s) by congruence.
        assert (Hd : d = RetryBackoff * (attempt + 1)) by congruence.
        clear H. subst t d. split; [lia|].
        exists (attempt + 1). split; [lia|]. split; [reflexivity|].
        intros Hk. destruct Hnext as [ok Hok]; [lia|].
        exists ok. right. right. right. exact Hok.
      * destruct (IH t d H) as (I1 & k & I2 & I3 & I4).
        split; [assumption|]. exists k. split; [lia|]. split; [assumption|].
        intros Hk. destruct I4 as [ok Hok]; [lia|].
        exists ok. right. right. right. exact Hok.
Qed.

(** C3: for every batch, the sender issues at most [RetryAttempts] submission
    calls; the claim that it sleeps only between attempts fails on the code:
    when every attempt is rejected, the loop still sleeps [RetryBackoff * 3]
    after the last one, and only then returns the error. *)
Theorem sendBatch_sleeps_after_last_attempt env batch s :
  (sends (trace_of (sendBatch batch env s)) <= Z.to_nat RetryAttempts)%nat /\
  ((forall j f, (j < Z.to_nat RetryAttempts)%nat ->
                sqs_ok env (sqs_calls s + j) f = false) ->
   result_of (sendBatch batch env s) = Some errFailedAfter /\
   sends (trace_of (sendBatch batch env s)) = Z.to_nat RetryAttempts /\
   last (trace_of (sendBatch batch env s)) (now s, EvLog LogNoURLs) =
     (now s + RetryBackoff * 1 + RetryBackoff * 2, EvSleep (RetryBackoff * 3)) /\
   now (state_of (sendBatch batch env s)) =
     now s + RetryBackoff * 1 + RetryBackoff * 2 + RetryBackoff * 3).
Proof.
  split.
  - pose proof (sendBatch_any env batch s) as H.
    destruct (sendBatch batch env s) as [[err s'] tr].
    unfold trace_of. cbn [snd]. tauto.
  - intros Hfail.
    pose proof (sendBatch_loop_exhausted env batch (Z.to_nat RetryAttempts) 0 s
                  ltac:(lia) ltac:(vm_compute; reflexivity) Hfail) as H.
    unfold sendBatch. change (Z.to_nat RetryAttempts) with 3%nat in *.
    cbn [spec_failed_attempts] in H. rewrite H.
    unfold result_of, state_of, trace_of. cbn [fst snd sent now sends last].
    change (0 + 1) with 1. change (1 + 1) with 2. change (2 + 1) with 3.
    repeat split; reflexivity.
Qed.

Lemma sendBatch_sleeps_after_last_attempt_witness :
  result_of (sendBatch batch2 (env_rejecting None) (start [])) = Some errFailedAfter /\
  last (trace_of (sendBatch batch2 (env_rejecting None) (start [])))
       (0, EvLog LogNoURLs) = (6 * Second, EvSleep (6 * Second)) /\
  now (state_of (sendBatch batch2 (env_rejecting None) (start []))) = 12 * Second.
Proof.
  destruct (proj2 (sendBatch_sleeps_after_last_attempt
                     (env_rejecting None) batch2 (start [])))
    as (H1 & H2 & H3 & H4).
  - intros j f Hj. reflexivity.
  - split; [exact H1 | split; [exact H3 | exact H4]].
Defined.

(** C4: the sender returns success at the first accepted attempt, without
    sleeping; after the failed attempt numbered [k] (from 1) it sleeps
    [RetryBackoff * k] before the next one; two rejections followed by an
    acceptance make exactly three submissions, with sleeps of
    [RetryBackoff * 1] and [RetryBackoff * 2], and success. *)
Theorem sendBatch_backoff_schedule env batch s (k : nat) :
  (k < Z.to_nat RetryAttempts)%nat ->
  (forall j f, (j < k)%nat -> sqs_ok env (sqs_calls s + j) f = false) ->
  (forall f, sqs_ok env (sqs_calls s + k) f = true) ->
  sendBatch batch env s =
    (None,
     sent s (snd (spec_failed_attempts k 0 (now s) batch)) (S (sqs_calls s + k)),
     fst (spec_failed_attempts k 0 (now s) batch)
       ++ [(snd (spec_failed_attempts k 0 (now s) batch), EvSend batch true);
           (snd (spec_failed_attempts k 0 (now s) batch),
            EvLog (LogSent (Z.of_nat (length batch))))]) /\
  sends (trace_of (sendBatch batch env s)) = S k /\
  (k = 2%nat ->
   trace_of (sendBatch batch env s) =
     [(now s, EvSend batch false);
      (now s, EvLog (LogAttemptFailed 1));
      (now s, EvSleep (RetryBackoff * 1));
      (now s + RetryBackoff * 1, EvSend batch false);
      (now s + RetryBackoff * 1, EvLog (LogAttemptFailed 2));
      (now s + RetryBackoff * 1, EvSleep (RetryBackoff * 2));
      (now s + RetryBackoff * 1 + RetryBackoff * 2, EvSend batch true);
      (now s + RetryBackoff * 1 + RetryBackoff * 2,
       EvLog (LogSent (Z.of_nat (length batch))))]).
Proof.
  intros Hk Hfail Hok.
  pose proof (sendBatch_loop_accepted env batch k (Z.to_nat RetryAttempts) 0 s
                Hk ltac:(lia) ltac:(vm_compute; reflexivity) Hfail Hok) as H.
  pose proof (spec_failed_attempts_sends k 0 (now s) batch) as Hs.
  unfold sendBatch.
  destruct (spec_failed_attempts k 0 (now s) batch) as [evs t'] eqn:E.
  rewrite H. cbn [fst snd] in *. split; [reflexivity|]. split.
  - unfold trace_of. cbn [snd]. rewrite sends_app, Hs. simpl. lia.
  - intros ->. cbn [spec_failed_attempts] in E.
    change (0 + 1) with 1 in E. change (1 + 1) with 2 in E.
    injection E as <- <-. reflexivity.
Qed.

Lemma sendBatch_backoff_schedule_witness :
  result_of (sendBatch batch2 (env_accepting [2%nat]) (start [])) = None /\
  sends (trace_of (sendBatch batch2 (env_accepting [2%nat]) (start []))) = 3%nat /\
  trace_of (sendBatch batch2 (env_accepting [2%nat]) (start [])) =
    [(0, EvSend batch2 false); (0, EvLog (LogAttemptFailed 1));
     (0, EvSleep (RetryBackoff * 1));
     (2 * Second, EvSend batch2 false); (2 * Second, EvLog (LogAttemptFailed 2));
     (2 * Second, EvSleep (RetryBackoff * 2));
     (6 * Second, EvSend batch2 true); (6 * Second, EvLog (LogSent 2))].
Proof.
  destruct (sendBatch_backoff_schedule (env_accepting [2%nat]) batch2 (start []) 2)
    as (H1 & H2 & H3).
  - vm_compute. lia.
  - intros j f Hj. destruct j as [|[|j]]; [reflexivity | reflexivity | lia].
  - intros f. reflexivity.
  - split; [rewrite H1; reflexivity | split; [exact H2 | exact (H3 eq_refl)]].
Defined.

(** C5, as stated, fails: with the queue rejecting everything and the
    cancellation one second into the first backoff, the sender still returns
    only after twelve seconds. *)
Lemma sendBatch_outlives_cancellation :
  ~ abandons_on_cancel (env_rejecting (Some Second)) batch2 (start []).
Proof.
  intros H.
  assert (E : now (state_of (sendBatch batch2 (env_rejecting (Some Second)) (start [])))
              = 12 * Second) by (vm_compute; reflexivity).
  destruct (H Second 0 (RetryBackoff * 1) eq_refl) as (_ & Hlate & _).
  - vm_compute. auto 10.
  - vm_compute. split; reflexivity.
  - rewrite E, RetryBackoff_val in Hlate. unfold Second in Hlate. lia.
Qed.

(** C5, amended: the backoff sleep is not cancellable. When the cancellation
    fires during the sleep that follows the failed attempt numbered [k], the
    sleep still lasts its whole [RetryBackoff * k], the next attempt is then
    issued unless [k] was the last, and failure is returned only once
    [RetryAttempts] submissions have been made. *)
Theorem sendBatch_backoff_not_cancellable env batch s (c t d : Z) :
  cancel_at env = Some c ->
  In (t, EvSleep d) (trace_of (sendBatch batch env s)) ->
  t < c < t + d ->
  t + d <= now (state_of (sendBatch batch env s)) /\
  (exists k, 1 <= k <= RetryAttempts /\ d = RetryBackoff * k /\
             (k < RetryAttempts ->
              exists ok, In (t + d, EvSend batch ok) (trace_of (sendBatch batch env s)))) /\
  (result_of (sendBatch batch env s) <> None ->
   sends (trace_of (sendBatch batch env s)) = Z.to_nat RetryAttempts).
Proof.
  intros _ Hin _. unfold sendBatch in *.
  pose proof (sendBatch_loop_sleeps env batch (Z.to_nat RetryAttempts) 0 s
                ltac:(lia) ltac:(vm_compute; reflexivity)) as Hs.
  pose proof (sendBatch_loop_failed env batch (Z.to_nat RetryAttempts) 0 s) as Hf.
  destruct (sendBatch_loop (Z.to_nat RetryAttempts) 0 batch env s) as [[err s'] tr].
  unfold result_of, state_of, trace_of in *. cbn [fst snd] in *.
  destruct (Hs t d Hin) as (H1 & k & H2 & H3 & H4).
  split; [assumption|]. split; [|assumption].
  exists k. change (Z.of_nat (Z.to_nat RetryAttempts)) with RetryAttempts in *.
  split; [lia|]. split; [assumption|]. intros Hk. apply H4. lia.
Qed.

Lemma sendBatch_backoff_not_cancellable_witness :
  2 * Second <= now (state_of (sendBatch batch2 (env_rejecting (Some Second)) (start []))) /\
  sends (trace_of (sendBatch batch2 (env_rejecting (Some Second)) (start []))) = 3%nat.
Proof.
  destruct (sendBatch_backoff_not_cancellable
              (env_rejecting (Some Second)) batch2 (start [])
              Second 0 (RetryBackoff * 1)) as (H1 & _ & H3).
  - reflexivity.
  - vm_compute. auto 10.
  - vm_compute. split; reflexivity.
  - split; [exact H1 | apply H3; discriminate].
Defined.

(** ** Durations *)

Lemma BatchMax_val : BatchMax = 12 * Second.
Proof. reflexivity. Qed.

Lemma TickMax_val : TickMax = 120 * Second.
Proof. reflexivity. Qed.

Lemma backoff_total_nonneg remaining attempt :
  0 <= attempt -> 0 <= backoff_total remaining attempt.
Proof.
  revert attempt.
  induction remaining as [|r IH]; intros attempt Ha; cbn [backoff_total]; [lia|].
  specialize (IH (attempt + 1) ltac:(lia)). rewrite RetryBackoff_val. lia.
Qed.

Lemma sendBatch_loop_duration env batch :
  forall (remaining : nat) (attempt : Z) (s : State),
    0 <= attempt -> attempt + Z.of_nat remaining < 1000 ->
    now (state_of (sendBatch_loop remaining attempt batch env s))
      <= now s + backoff_total remaining attempt.
Proof.
  induction remaining as [|r IH]; intros attempt s Ha Hb.
  - unfold state_of. simpl. lia.
  - destruct (backoff_exact attempt ltac:(lia)) as (E1 & E2 & E3).
    pose proof (backoff_total_nonneg r (attempt + 1) ltac:(lia)) as Hnn.
    cbn [sendBatch_loop backoff_total]. unfold bind at 1. unfold SendMessageBatch at 1.
    destruct (sqs_ok env (sqs_calls s) (done_at env (now s))).
    + unfold bind, log_Printf, ret, state_of. cbn [fst snd now].
      rewrite RetryBackoff_val in *. lia.
    + unfold bind, log_Printf, time_Sleep.
      cbn [now table messageCount sqs_calls db_calls].
      rewrite E1, E2, E3.
      match goal with |- context [sendBatch_loop r ?a batch env ?s1] =>
        specialize (IH a s1 ltac:(lia) ltac:(lia));
        destruct (sendBatch_loop r a batch env s1) as [[err s'] tr] end.
      unfold state_of in *. cbn [fst snd now] in *. lia.
Qed.

Lemma dispatch_chunk_duration env recs s :
  now (state_of (dispatch_chunk recs env s)) <= now s + BatchMax.
Proof.
  rewrite dispatch_chunk_run. unfold flush, bind.
  pose proof (sendBatch_loop_duration env (entries_from (messageCount s) recs)
                (Z.to_nat RetryAttempts) 0
                (counted s (count_from (messageCount s) recs))
                ltac:(lia) ltac:(vm_compute; reflexivity)) as H.
  fold (sendBatch (entries_from (messageCount s) recs)) in H.
  destruct (sendBatch _ env _) as [[err s1] tr1].
  unfold state_of in *. cbn [fst snd now counted] in H.
  destruct err as [e|].
  - unfold log_Printf. cbn [fst snd]. exact H.
  - pose proof (mark_entries_any env (entries_from (messageCount s) recs) s1) as G.
    destruct (forM_ _ _ env s1) as [[[] s2] tr2].
    destruct G as (_ & G & _). cbn [fst snd]. rewrite G. exact H.
Qed.

Lemma dispatch_chunks_duration env :
  forall (cs : list (list URLs)) (s : State),
    now (state_of (forM_ dispatch_chunk cs env s))
      <= now s + Z.of_nat (length cs) * BatchMax.
Proof.
  induction cs as [|c cs IH]; intros s.
  - unfold state_of. simpl. lia.
  - cbn [forM_]. unfold bind.
    pose proof (dispatch_chunk_duration env c s) as H.
    destruct (dispatch_chunk c env s) as [[[] s1] t1].
    specialize (IH s1). destruct (forM_ dispatch_chunk cs env s1) as [[[] s2] t2].
    unfold state_of in *. cbn [fst snd length] in *. lia.
Qed.

Lemma fetched_length s : (length (fetched s) <= Z.to_nat DatabaseLimit)%nat.
Proof. unfold fetched. rewrite length_firstn. lia. Qed.

(** A tick never lasts longer than ten batches retried to the end. *)
Lemma processURLs_duration env s :
  now s <= now (state_of (processURLs env s)) <= now s + TickMax.
Proof.
  split.
  - pose proof (processURLs_any env s) as H.
    destruct (processURLs env s) as [[[] s'] tr]. unfold state_of. cbn [fst snd]. tauto.
  - rewrite processURLs_run, TickMax_val.
    destruct (db_ok env (db_calls s)).
    + destruct (fetched s) as [|u urls] eqn:E.
      * unfold state_of. cbn [fst snd now queried]. unfold Second. lia.
      * pose proof (dispatch_chunks_duration env
                      (spec_chunks (Z.to_nat BatchSize) (u :: urls)) (queried s)) as H.
        pose proof (fetched_length s) as Hl. rewrite E in Hl.
        rewrite chunks_length in H by (vm_compute; lia).
        destruct (forM_ _ _ env _) as [[[] s2] t2].
        unfold state_of in *. cbn [fst snd now queried] in *.
        rewrite BatchMax_val in H.
        change (Z.to_nat BatchSize) with 10%nat in H.
        change (Z.to_nat DatabaseLimit) with 100%nat in Hl.
        assert (Hd : ((length (u :: urls) + 10 - 1) / 10 <= 10)%nat).
        { apply Nat.lt_succ_r. apply Nat.Div0.div_lt_upper_bound. lia. }
        unfold Second in *. nia.
    + unfold state_of. cbn [fst snd now queried]. unfold Second. lia.
Qed.

(** ** The polling loop *)

(** The loop leaves at the top of an iteration once the context is done. *)
Lemma producer_stops env fuel s :
  done_at env (now s) = true ->
  producer (S fuel) env s = (Stopped, s, [(now s, EvLog LogShuttingDown)]).
Proof.
  intros H. cbn [producer]. unfold bind, ctx_Done, log_Printf, ret.
  rewrite H. reflexivity.
Qed.

(** Otherwise it runs a whole tick, sleeps the whole interval, and comes
    back to the top. *)
Lemma producer_ticks env fuel s :
  done_at env (now s) = false ->
  producer (S fuel) env s =
  (result_of (producer fuel env (slept (state_of (processURLs env s)) PollingInterval)),
   state_of (producer fuel env (slept (state_of (processURLs env s)) PollingInterval)),
   trace_of (processURLs env s)
     ++ (now (state_of (processURLs env s)), EvSleep PollingInterval)
     :: trace_of (producer fuel env (slept (state_of (processURLs env s)) PollingInterval))).
Proof.
  intros H. cbn [producer]. unfold bind at 1. unfold ctx_Done at 1.
  rewrite H. unfold bind, time_Sleep.
  destruct (processURLs env s) as [[[] s1] t1].
  unfold result_of, state_of, trace_of, slept. cbn [fst snd].
  rewrite PollingInterval_val. change (Z.max 0 10000000000) with 10000000000.
  destruct (producer fuel env _) as [[out s2] t2]. reflexivity.
Qed.

(** Once cancelled, the loop stops: at the first top of an iteration on or
    after the cancellation, hence after the tick in progress and after the
    whole sleep that follows it. *)
Lemma producer_terminates env c :
  cancel_at env = Some c ->
  forall (n : nat) (s : State),
    c - now s <= Z.of_nat n ->
    result_of (producer (S n) env s) = Stopped /\
    c <= now (state_of (producer (S n) env s)) /\
    now (state_of (producer (S n) env s))
      <= Z.max (now s) (c + TickMax + PollingInterval).
Proof.
  intros Hc. induction n as [|n IH]; intros s Hn.
  - assert (Hd : done_at env (now s) = true)
      by (unfold done_at; rewrite Hc; apply Z.leb_le; lia).
    rewrite (producer_stops _ _ _ Hd). unfold result_of, state_of. cbn [fst snd].
    repeat split; lia.
  - destruct (done_at env (now s)) eqn:Hd.
    + rewrite (producer_stops _ _ _ Hd). unfold result_of, state_of. cbn [fst snd].
      unfold done_at in Hd. rewrite Hc in Hd. apply Z.leb_le in Hd.
      repeat split; lia.
    + rewrite (producer_ticks _ _ _ Hd).
      pose proof (processURLs_duration env s) as [D1 D2].
      specialize (IH (slept (state_of (processURLs env s)) PollingInterval)).
      unfold done_at in Hd. rewrite Hc in Hd. apply Z.leb_gt in Hd.
      cbn [now slept] in IH. rewrite PollingInterval_val in *.
      destruct IH as (I1 & I2 & I3); [lia|].
      unfold result_of, state_of in *. cbn [fst snd] in *.
      repeat split; [assumption | assumption | lia].
Qed.

(** C7: when the fetch fails, the tick makes no queue submission and no mark
    call and leaves the table as it was; the error stays inside
    [processURLs], and the loop sleeps and goes on to the next tick. *)
Theorem fetch_failure_skips_tick env s :
  db_ok env (db_calls s) = false ->
  processURLs env s =
    (tt, queried s, [(now s, EvFind None); (now s, EvLog LogQueryFailed)]) /\
  sends (trace_of (processURLs env s)) = O /\
  updates (trace_of (processURLs env s)) = [] /\
  table (state_of (processURLs env s)) = table s /\
  (forall fuel,
     done_at env (now s) = false ->
     producer (S fuel) env s =
       (result_of (producer fuel env (slept (queried s) PollingInterval)),
        state_of (producer fuel env (slept (queried s) PollingInterval)),
        [(now s, EvFind None); (now s, EvLog LogQueryFailed);
         (now s, EvSleep PollingInterval)]
          ++ trace_of (producer fuel env (slept (queried s) PollingInterval)))).
Proof.
  intros Hdb.
  assert (E : processURLs env s =
              (tt, queried s, [(now s, EvFind None); (now s, EvLog LogQueryFailed)]))
    by (rewrite processURLs_run, Hdb; reflexivity).
  split; [exact E|]. rewrite E. unfold trace_of, state_of. cbn [fst snd].
  repeat split.
  intros fuel Hd. rewrite (producer_ticks _ _ _ Hd), E.
  unfold result_of, state_of, trace_of. cbn [fst snd]. reflexivity.
Qed.

Lemma fetch_failure_skips_tick_witness :
  trace_of (processURLs env_store_down (start (rows 1 3))) =
    [(0, EvFind None); (0, EvLog LogQueryFailed)] /\
  table (state_of (processURLs env_store_down (start (rows 1 3)))) = rows 1 3 /\
  submitted (trace_of (producer 2 env_store_down (start (rows 1 3)))) =
    [entries_from 0 (map scan (rows 1 3))].
Proof.
  destruct (fetch_failure_skips_tick env_store_down (start (rows 1 3)))
    as (H1 & _ & _ & H4 & H5).
  - reflexivity.
  - split; [rewrite H1; reflexivity | split; [exact H4|]].
    rewrite (H5 1%nat eq_refl). vm_compute. reflexivity.
Defined.

(** C6, as stated, fails on each count. Cancelled one second into the
    polling sleep, the loop still sleeps the ten seconds. Cancelled one second
    into a tick of eleven records that the queue rejects, it still submits at
    seconds 2, 6, 12, 14 and 18 and leaves at second 34. *)
Lemma producer_not_cooperative :
  ~ wakes_on_cancel (env_rejecting (Some Second)) 3 (start []) /\
  ~ quiet_after_cancel (env_rejecting (Some Second)) 3 (start (rows 1 11)) /\
  ~ exits_in_time (env_rejecting (Some Second)) 3 (start (rows 1 11)).
Proof.
  split; [|split]; intros H.
  - assert (E : now (state_of (producer 3 (env_rejecting (Some Second)) (start [])))
                = 10 * Second) by (vm_compute; reflexivity).
    specialize (H Second 0 eq_refl ltac:(vm_compute; reflexivity)).
    assert (Hlate : now (state_of (producer 3 (env_rejecting (Some Second)) (start [])))
                    < 0 + PollingInterval).
    { apply H; [vm_compute; auto 10 | vm_compute; split; reflexivity]. }
    rewrite E, PollingInterval_val in Hlate. unfold Second in Hlate. lia.
  - specialize (H Second (2 * Second)
                  (EvSend (entries_from 0 (map scan (rows 1 10))) false) eq_refl).
    assert (Hcall : is_call (EvSend (entries_from 0 (map scan (rows 1 10))) false) = false).
    { apply H; [vm_compute; auto 10 | vm_compute; reflexivity]. }
    discriminate Hcall.
  - assert (E : now (state_of (producer 3 (env_rejecting (Some Second))
                                 (start (rows 1 11))))
                = 34 * Second) by (vm_compute; reflexivity).
    specialize (H Second eq_refl).
    assert (Hlate : now (state_of (producer 3 (env_rejecting (Some Second))
                                     (start (rows 1 11))))
                    <= Second + PollingInterval + BatchMax).
    { apply H; [vm_compute; discriminate | vm_compute; reflexivity]. }
    rewrite E, PollingInterval_val, BatchMax_val in Hlate. unfold Second in Hlate. lia.
Qed.

(** C6, amended: cancellation is looked at only at the top of an iteration.
    Seen there, the loop leaves without any store or queue call. Not seen
    there, the whole tick runs and the whole [PollingInterval] is slept,
    whenever the cancellation comes. A cancelled loop does stop: at the first
    top of an iteration on or after the cancellation, that is within the
    rest of the tick in progress (at most [TickMax]) plus one polling
    interval. *)
Theorem producer_cancellation_points env s :
  (forall fuel,
     done_at env (now s) = true ->
     producer (S fuel) env s = (Stopped, s, [(now s, EvLog LogShuttingDown)])) /\
  (forall fuel,
     done_at env (now s) = false ->
     producer (S fuel) env s =
       (result_of (producer fuel env (slept (state_of (processURLs env s)) PollingInterval)),
        state_of (producer fuel env (slept (state_of (processURLs env s)) PollingInterval)),
        trace_of (processURLs env s)
          ++ (now (state_of (processURLs env s)), EvSleep PollingInterval)
          :: trace_of (producer fuel env
                         (slept (state_of (processURLs env s)) PollingInterval)))) /\
  (forall c,
     cancel_at env = Some c ->
     exists fuel,
       result_of (producer fuel env s) = Stopped /\
       c <= now (state_of (producer fuel env s)) /\
       now (state_of (producer fuel env s))
         <= Z.max (now s) (c + TickMax + PollingInterval)).
Proof.
  split; [|split].
  - intros fuel. apply producer_stops.
  - intros fuel. apply producer_ticks.
  - intros c Hc. exists (S (Z.to_nat (c - now s))).
    apply (producer_terminates env c Hc). lia.
Qed.

Lemma producer_cancellation_points_witness :
  producer 3 (env_rejecting (Some Second)) (start []) =
    (Stopped, slept (queried (start [])) PollingInterval,
     [(0, EvFind (Some [])); (0, EvLog LogNoURLs); (0, EvSleep PollingInterval);
      (PollingInterval, EvLog LogShuttingDown)]) /\
  exists fuel,
    result_of (producer fuel (env_rejecting (Some Second)) (start (rows 1 11))) = Stopped /\
    now (state_of (producer fuel (env_rejecting (Some Second)) (start (rows 1 11))))
      <= Second + TickMax + PollingInterval.
Proof.
  destruct (producer_cancellation_points (env_rejecting (Some Second)) (start []))
    as (_ & H2 & _).
  destruct (producer_cancellation_points (env_rejecting (Some Second)) (start (rows 1 11)))
    as (_ & _ & H3).
  split.
  - rewrite (H2 2%nat eq_refl). reflexivity.
  - destruct (H3 Second eq_refl) as (fuel & F1 & _ & F3).
    exists fuel. split; [exact F1 | exact F3].
Defined.

(** ** Which rows a tick marks *)

Lemma marked_by_mark E u r : marked_by E (mark u r) = marked_by (u :: E) r.
Proof.
  unfold marked_by, mark. cbn [existsb].
  destruct (String.eqb (row_url r) u); cbn [row_url row_id orb].
  - destruct (existsb _ E); reflexivity.
  - reflexivity.
Qed.

Lemma apply_updates_marked us :
  forall t, apply_updates us t = map (marked_by (executed us)) t.
Proof.
  induction us as [|[u ok] us IH]; intros t.
  - unfold apply_updates, executed, marked_by. simpl.
    rewrite map_id. reflexivity.
  - unfold apply_updates in *. cbn [fold_left fst snd]. rewrite IH.
    unfold executed. cbn [filter snd]. destruct ok; [|reflexivity].
    cbn [map fst]. rewrite map_map. apply map_ext. intros r.
    apply marked_by_mark.
Qed.

Lemma executed_incl us u : In u (executed us) -> In u (map fst us).
Proof.
  unfold executed. intros H. apply in_map_iff in H. destruct H as (c & E & H).
  apply filter_In in H. apply in_map_iff. exists c. tauto.
Qed.

Lemma executed_all us :
  (forall u, ~ In (u, false) us) -> executed us = map fst us.
Proof.
  intros H. unfold executed. f_equal.
  induction us as [|[u ok] us IH]; [reflexivity|].
  cbn [filter snd]. destruct ok.
  - f_equal. apply IH. intros u' Hin. apply (H u'). right. assumption.
  - exfalso. apply (H u). left. reflexivity.
Qed.

Lemma marked_by_In E r :
  In (row_url r) E -> marked_by E r = mkRow (row_id r) (row_url r) true.
Proof.
  intros H. unfold marked_by.
  replace (existsb (String.eqb (row_url r)) E) with true; [reflexivity|].
  symmetry. apply existsb_exists. exists (row_url r). split; [assumption|].
  apply String.eqb_refl.
Qed.

Lemma marked_by_not_In E r : ~ In (row_url r) E -> marked_by E r = r.
Proof.
  intros H. unfold marked_by.
  destruct (existsb (String.eqb (row_url r)) E) eqn:Ex; [|reflexivity].
  exfalso. apply H. apply existsb_exists in Ex. destruct Ex as (u & Hin & Heq).
  apply String.eqb_eq in Heq. congruence.
Qed.

(** What [processURLs_any] says about marking, in terms of the rows. *)
Lemma tick_marks_rows env s :
  map fst (updates (trace_of (processURLs env s)))
    = bodies (accepted (trace_of (processURLs env s))) /\
  table (state_of (processURLs env s))
    = map (marked_by (executed (updates (trace_of (processURLs env s))))) (table s).
Proof.
  pose proof (processURLs_any env s) as H.
  destruct (processURLs env s) as [[[] s'] tr].
  unfold state_of, trace_of. cbn [fst snd].
  destruct H as (_ & H2 & _ & H4 & _).
  rewrite apply_updates_marked in H2. split; assumption.
Qed.

(** C1, as stated, fails: eleven records, the eleventh carrying the url of the
    first; the queue accepts the first chunk and rejects the second three
    times; the eleventh record is marked all the same. *)
Lemma duplicate_url_marked_without_acceptance :
  ~ marks_exactly_accepted_chunks (env_accepting [0%nat])
      (start (rows 1 10 ++ [row_dup 11 1])).
Proof.
  intros H.
  specialize (H (row_dup 11 1)
                ltac:(apply in_or_app; right; left; reflexivity) eq_refl).
  destruct H as [H _].
  destruct H as (recs & Hin & Hr & Hacc); [vm_compute; auto 20|].
  assert (E : spec_chunks (Z.to_nat BatchSize)
                (fetched (start (rows 1 10 ++ [row_dup 11 1])))
              = [map scan (rows 1 10); [scan (row_dup 11 1)]])
    by (vm_compute; reflexivity).
  rewrite E in Hin. destruct Hin as [<- | [<- | []]].
  - refute_In Hr (fun u => ID u =? 11).
  - refute_In Hacc (fun l : list string => Nat.eqb (length l) 1).
Qed.

(** C1, amended: in a tick every mark call comes after an accepted submission
    of a batch that carries its url; the mark calls are, in order, one per
    entry of each accepted batch; and the rows marked are the stored rows
    whose url is the one of an executed mark call, hence, when the store
    executes them all, exactly the stored rows whose url is carried by an
    accepted batch, whether or not the row was part of it. *)
Theorem marks_only_after_acceptance env s :
  marks_follow_acceptance (trace_of (processURLs env s)) /\
  map fst (updates (trace_of (processURLs env s)))
    = bodies (accepted (trace_of (processURLs env s))) /\
  table (state_of (processURLs env s))
    = map (marked_by (executed (updates (trace_of (processURLs env s))))) (table s) /\
  ((forall u, ~ In (u, false) (updates (trace_of (processURLs env s)))) ->
   table (state_of (processURLs env s))
     = map (marked_by (bodies (accepted (trace_of (processURLs env s))))) (table s)).
Proof.
  pose proof (processURLs_any env s) as H.
  destruct (processURLs env s) as [[[] s'] tr].
  unfold state_of, trace_of. cbn [fst snd].
  destruct H as (_ & H2 & H3 & H4 & _).
  rewrite apply_updates_marked in H2.
  repeat split; try assumption.
  intros Hall. rewrite H2, (executed_all _ Hall), H4. reflexivity.
Qed.

Lemma marks_only_after_acceptance_witness :
  map row_processed
      (table (state_of (processURLs (env_accepting [0%nat])
                          (start (rows 1 10 ++ [row_dup 11 1])))))
    = [true; true; true; true; true; true; true; true; true; true; true] /\
  length (accepted (trace_of (processURLs (env_accepting [0%nat])
                                (start (rows 1 10 ++ [row_dup 11 1]))))) = 1%nat.
Proof.
  destruct (marks_only_after_acceptance (env_accepting [0%nat])
              (start (rows 1 10 ++ [row_dup 11 1]))) as (_ & _ & _ & H).
  split.
  - rewrite H.
    + vm_compute. reflexivity.
    + apply all_executed. vm_compute. reflexivity.
  - vm_compute. reflexivity.
Defined.

(** C10: marking is keyed on the url, not on the record: every entry of an
    accepted batch gets a mark call on its body, and an executed mark call
    marks every stored row with that url, whatever its id; so a row that was
    in no submitted batch is marked when another row with its url is. *)
Theorem marking_keyed_on_payload env s :
  (forall batch e,
     In batch (accepted (trace_of (processURLs env s))) -> In e batch ->
     exists ok, In (MessageBody e, ok) (updates (trace_of (processURLs env s)))) /\
  (forall u r,
     In (u, true) (updates (trace_of (processURLs env s))) ->
     In r (table s) -> row_url r = u ->
     In (mkRow (row_id r) (row_url r) true) (table (state_of (processURLs env s)))).
Proof.
  destruct (tick_marks_rows env s) as (H1 & H2).
  split.
  - intros batch e Hb He.
    assert (Hin : In (MessageBody e)
                     (map fst (updates (trace_of (processURLs env s))))).
    { rewrite H1. unfold bodies. apply in_flat_map. exists batch.
      split; [assumption | apply in_map; assumption]. }
    apply in_map_iff in Hin. destruct Hin as ([u ok] & E & Hin).
    cbn [fst] in E. subst u. exists ok. assumption.
  - intros u r Hu Hr E. rewrite H2.
    rewrite <- (marked_by_In (executed (updates (trace_of (processURLs env s)))) r).
    + apply in_map. assumption.
    + rewrite E. unfold executed. apply in_map_iff. exists (u, true).
      split; [reflexivity|]. apply filter_In. split; [assumption | reflexivity].
Qed.

Lemma marking_keyed_on_payload_witness :
  forallb (fun u => negb (ID u =? 101))
          (fetched (start (rows 1 100 ++ [row_dup 101 1]))) = true /\
  In (mkRow 101 (row_url (row_n 1)) true)
     (table (state_of (processURLs env_ok (start (rows 1 100 ++ [row_dup 101 1]))))).
Proof.
  split; [vm_compute; reflexivity|].
  apply (proj2 (marking_keyed_on_payload env_ok (start (rows 1 100 ++ [row_dup 101 1])))
               (row_url (row_n 1)) (row_dup 101 1)).
  - vm_compute. left. reflexivity.
  - apply in_or_app. right. left. reflexivity.
  - reflexivity.
Defined.

(** C9, as stated, fails: twenty-five records, the eleventh carrying the url
    of the first; chunks 1 and 3 are accepted, chunk 2 rejected three times;
    the eleventh record, of chunk 2, is marked by the success of chunk 1. *)
Lemma failed_chunk_record_marked :
  ~ isolates_failed_chunk (env_accepting [0%nat; 4%nat])
      (start (rows 1 10 ++ row_dup 11 1 :: rows 12 14)).
Proof.
  intros H.
  specialize (H (map scan (row_dup 11 1 :: rows 12 9)) (row_dup 11 1)).
  assert (Hin : In (row_dup 11 1)
                   (table (state_of (processURLs (env_accepting [0%nat; 4%nat])
                                       (start (rows 1 10 ++ row_dup 11 1 :: rows 12 14)))))).
  { apply H.
    - vm_compute. right. left. reflexivity.
    - intros Hacc.
      refute_In Hacc (fun l : list string =>
                        String.eqb (nth 1 l EmptyString) (row_url (row_n 12))).
    - left. reflexivity.
    - apply in_or_app. right. left. reflexivity.
    - reflexivity. }
  refute_In Hin (fun r => (row_id r =? 11) && negb (row_processed r)).
Qed.

(** C9, amended: a tick whose fetch succeeds is one segment of calls per
    chunk, in order, whatever happened to the chunks before: each chunk is
    submitted between one and [RetryAttempts] times; an accepted chunk is
    followed by one mark call per record, a rejected chunk by none. A row
    stays unmarked unless its url is carried by an accepted batch: a record
    of a rejected chunk is marked only when it shares its url with an entry
    of an accepted one. *)
Theorem chunk_failure_isolated env s :
  db_ok env (db_calls s) = true ->
  (exists head segs,
     trace_of (processURLs env s) = head ++ concat segs /\
     sends head = O /\ updates head = [] /\
     Forall2 chunk_segment (spec_chunks (Z.to_nat BatchSize) (fetched s)) segs) /\
  (forall r,
     In r (table s) ->
     ~ In (row_url r) (bodies (accepted (trace_of (processURLs env s)))) ->
     In r (table (state_of (processURLs env s)))).
Proof.
  intros Hdb. split.
  - rewrite processURLs_run, Hdb.
    destruct (fetched s) as [|u urls] eqn:E.
    + exists [(now s, EvFind (Some [])); (now s, EvLog LogNoURLs)], [].
      unfold trace_of. cbn [snd concat]. simp spec_chunks.
      split; [reflexivity|]. split; [reflexivity|]. split; [reflexivity|].
      constructor.
    + pose proof (dispatch_chunks_any env
                    (spec_chunks (Z.to_nat BatchSize) (u :: urls)) (queried s)) as H.
      destruct (forM_ _ _ env _) as [[[] s2] t2].
      destruct H as (_ & _ & _ & _ & _ & (segs & H6 & H7) & _).
      exists [(now s, EvFind (Some (u :: urls)));
              (now s, EvLog (LogProcessing (Z.of_nat (length (u :: urls)))))], segs.
      unfold trace_of. cbn [snd]. subst t2. repeat split. assumption.
  - intros r Hr Hnot.
    destruct (tick_marks_rows env s) as (H1 & H2).
    rewrite H2.
    rewrite <- (marked_by_not_In (executed (updates (trace_of (processURLs env s)))) r) at 1.
    + apply in_map. assumption.
    + intros Hin. apply Hnot. rewrite <- H1. apply executed_incl. assumption.
Qed.

Lemma chunk_failure_isolated_witness :
  map (@length Entry)
      (submitted (trace_of (processURLs (env_accepting [0%nat; 4%nat])
                              (start (rows 1 25)))))
    = [10; 10; 10; 10; 5]%nat /\
  map row_processed
      (table (state_of (processURLs (env_accepting [0%nat; 4%nat]) (start (rows 1 25)))))
    = repeat true 10 ++ repeat false 10 ++ repeat true 5 /\
  In (row_n 11)
     (table (state_of (processURLs (env_accepting [0%nat; 4%nat]) (start (rows 1 25))))).
Proof.
  split; [vm_compute; reflexivity | split; [vm_compute; reflexivity|]].
  apply (proj2 (chunk_failure_isolated (env_accepting [0%nat; 4%nat])
                  (start (rows 1 25)) eq_refl)).
  - vm_compute. auto 20.
  - intros Hin. refute_In Hin (String.eqb (row_url (row_n 11))).
Defined.

(** C2: a non-empty fetch is handled as the consecutive chunks of the fetched
    sequence, in fetch order: [ceil (N / BatchSize)] of them, each of at most
    [BatchSize] records and all but the last of exactly [BatchSize], every
    record in one chunk at its place; each chunk makes one segment of the
    trace, and when the queue accepts everything the submissions are exactly
    the chunks, one call each. *)
Theorem processURLs_partitions env s :
  db_ok env (db_calls s) = true ->
  fetched s <> [] ->
  concat (spec_chunks (Z.to_nat BatchSize) (fetched s)) = fetched s /\
  Z.of_nat (length (spec_chunks (Z.to_nat BatchSize) (fetched s)))
    = (Z.of_nat (length (fetched s)) + BatchSize - 1) / BatchSize /\
  Forall (fun c => 1 <= Z.of_nat (length c) <= BatchSize)
         (spec_chunks (Z.to_nat BatchSize) (fetched s)) /\
  (forall pre c,
     spec_chunks (Z.to_nat BatchSize) (fetched s) = pre ++ [c] ->
     Forall (fun c' => Z.of_nat (length c') = BatchSize) pre) /\
  (exists segs,
     trace_of (processURLs env s)
       = (now s, EvFind (Some (fetched s)))
           :: (now s, EvLog (LogProcessing (Z.of_nat (length (fetched s)))))
           :: concat segs /\
     Forall2 chunk_segment (spec_chunks (Z.to_nat BatchSize) (fetched s)) segs) /\
  ((forall n f, sqs_ok env n f = true) ->
   sends (trace_of (processURLs env s))
     = length (spec_chunks (Z.to_nat BatchSize) (fetched s)) /\
   map (map MessageBody) (submitted (trace_of (processURLs env s)))
     = map (map URL) (spec_chunks (Z.to_nat BatchSize) (fetched s))).
Proof.
  intros Hdb Hne.
  split; [apply chunks_concat|]. split.
  { rewrite chunks_length by (vm_compute; lia).
    change (Z.to_nat BatchSize) with 10%nat. change BatchSize with 10.
    rewrite Nat2Z.inj_div. f_equal. lia. }
  split.
  { pose proof (chunks_sizes (Z.to_nat BatchSize) (fetched s) ltac:(vm_compute; lia)) as H.
    eapply Forall_impl; [|exact H]. intros c Hc. cbv beta in Hc.
    change (Z.to_nat BatchSize) with 10%nat in Hc. change BatchSize with 10. lia. }
  split.
  { intros pre c E.
    pose proof (chunks_full (Z.to_nat BatchSize) (fetched s) pre c E) as H.
    eapply Forall_impl; [|exact H]. intros c' Hc. cbv beta in Hc.
    change (Z.to_nat BatchSize) with 10%nat in Hc. change BatchSize with 10. lia. }
  rewrite processURLs_run, Hdb.
  destruct (fetched s) as [|u urls] eqn:E; [congruence|].
  pose proof (dispatch_chunks_any env
                (spec_chunks (Z.to_nat BatchSize) (u :: urls)) (queried s)) as H.
  destruct (forM_ _ _ env _) as [[[] s2] t2].
  destruct H as (_ & _ & _ & _ & _ & (segs & H6 & H7) & H8).
  unfold trace_of. cbn [snd sends submitted]. split.
  - exists segs. subst t2. split; [reflexivity | assumption].
  - exact H8.
Qed.

Lemma processURLs_partitions_witness :
  map (@length URLs) (spec_chunks (Z.to_nat BatchSize) (fetched (start (rows 1 25))))
    = [10; 10; 5]%nat /\
  sends (trace_of (processURLs env_ok (start (rows 1 25)))) = 3%nat /\
  map (@length Entry) (submitted (trace_of (processURLs env_ok (start (rows 1 25)))))
    = [10; 10; 5]%nat /\
  forallb row_processed (table (state_of (processURLs env_ok (start (rows 1 25))))) = true.
Proof.
  destruct (processURLs_partitions env_ok (start (rows 1 25)))
    as (_ & _ & _ & _ & _ & H).
  - reflexivity.
  - vm_compute. discriminate.
  - destruct (H (fun _ _ => eq_refl)) as [H1 H2].
    split; [vm_compute; reflexivity|]. split; [rewrite H1; vm_compute; reflexivity|].
    split; vm_compute; reflexivity.
Defined.

(** C8: the claim fails on the code. The model declares two columns, [id]
    and [url]: no boolean column, no default, no index; the column
    [processed] that [processURLs] filters on and writes is not among
    them. *)
Theorem URLs_model_lacks_processed :
  map col_name URLs_columns = ["id"; "url"]%string /\
  ~ In processed_column (map col_name URLs_columns) /\
  In url_column (map col_name URLs_columns) /\
  Forall (fun c => col_type c <> TBool /\ col_default c = None /\ col_index c = false)
         URLs_columns.
Proof.
  split; [reflexivity|]. split.
  - simpl. intros [H | [H | []]]; discriminate H.
  - split; [right; left; reflexivity|].
    repeat constructor; discriminate.
Qed.

(** * Further properties of the code *)

(** ** Process start *)

Lemma getEnv_set environ key :
  os_Getenv environ key <> EmptyString ->
  getEnv environ key = Returned (os_Getenv environ key).
Proof.
  intros H. unfold getEnv.
  destruct (String.eqb_spec (os_Getenv environ key) EmptyString); [contradiction | reflexivity].
Qed.

Lemma getEnv_unset environ key :
  os_Getenv environ key = EmptyString ->
  getEnv environ key = Fatal ("Environment variable " ++ key ++ " is not set")%string.
Proof.
  intros H. unfold getEnv. rewrite H. reflexivity.
Qed.


(** The settings are returned only when the five variables are set, and are
    then their values. *)
Lemma settings_all_set (environ : Environ) :
  (exists st, main_getEnv environ = Returned st) ->
  forall key, In key settings_keys -> os_Getenv environ key <> EmptyString.
Proof.
  intros [st E] key Hin Hempty. unfold main_getEnv in E.
  unfold settings_keys in Hin. simpl in Hin.
  destruct Hin as [<- | [<- | [<- | [<- | [<- | []]]]]];
    repeat match type of E with
      | context [getEnv environ ?k] =>
          first [ rewrite (getEnv_unset environ k Hempty) in E; discriminate E
                | destruct (getEnv environ k); [|discriminate E] ]
      end.
Qed.

Lemma settings_values (environ : Environ) :
  (forall key, In key settings_keys -> os_Getenv environ key <> EmptyString) ->
  main_getEnv environ =
    Returned (mkSettings (os_Getenv environ "SQS_URL")
                         (os_Getenv environ "IAM_ACCESS_KEY")
                         (os_Getenv environ "IAM_SECRET")
                         (os_Getenv environ "AWS_REGION")
                         (os_Getenv environ "PORT")).
Proof.
  intros H. unfold main_getEnv.
  rewrite !getEnv_set by (apply H; unfold settings_keys; simpl; tauto).
  reflexivity.
Qed.

(** X1: [main] gets its five settings exactly when each of the five
    variables is set to a non-empty value, a variable set to the empty string
    counting as missing; otherwise the process exits with a message that
    names the first variable, in the order SQS_URL, IAM_ACCESS_KEY,
    IAM_SECRET, AWS_REGION, PORT, that is missing. *)
Theorem main_getEnv_first_missing (environ : Environ) :
  ((forall key, In key settings_keys -> os_Getenv environ key <> EmptyString) ->
   main_getEnv environ =
     Returned (mkSettings (os_Getenv environ "SQS_URL")
                          (os_Getenv environ "IAM_ACCESS_KEY")
                          (os_Getenv environ "IAM_SECRET")
                          (os_Getenv environ "AWS_REGION")
                          (os_Getenv environ "PORT"))) /\
  (forall pre key post,
     settings_keys = pre ++ key :: post ->
     (forall key', In key' pre -> os_Getenv environ key' <> EmptyString) ->
     os_Getenv environ key = EmptyString ->
     main_getEnv environ =
       Fatal ("Environment variable " ++ key ++ " is not set")%string) /\
  ((exists st, main_getEnv environ = Returned st) ->
   forall key, In key settings_keys -> os_Getenv environ key <> EmptyString).
Proof.
  split; [|split].
  - apply settings_values.
  - intros pre key post E Hpre Hkey. unfold settings_keys in E.
    unfold main_getEnv.
    repeat (destruct pre as [|? pre];
            [ injection E as <- _; rewrite (getEnv_unset _ _ Hkey); reflexivity
            | injection E as <- E;
              rewrite getEnv_set by (apply Hpre; simpl; tauto) ]).
    destruct pre; discriminate E.
  - apply settings_all_set.
Qed.

Lemma main_getEnv_first_missing_witness :
  main_getEnv (environ_of [("SQS_URL", "https://queue"); ("IAM_ACCESS_KEY", "");
                           ("PORT", "8080")]%string)
    = Fatal "Environment variable IAM_ACCESS_KEY is not set".
Proof.
  apply (proj1 (proj2 (main_getEnv_first_missing _)) ["SQS_URL"%string] "IAM_ACCESS_KEY"%string
               ["IAM_SECRET"; "AWS_REGION"; "PORT"]%string).
  - reflexivity.
  - intros key' [<- | []]. discriminate.
  - reflexivity.
Defined.

(** A string is cut in one way only at its first space. *)
Lemma append_space_inj (a b x y : string) :
  no_space a = true -> no_space b = true ->
  (a ++ String (Ascii.ascii_of_nat 32) x)%string
    = (b ++ String (Ascii.ascii_of_nat 32) y)%string ->
  a = b /\ x = y.
Proof.
  revert b. induction a as [|c a IH]; intros [|d b] Ha Hb E; simpl in *.
  - injection E as E. auto.
  - injection E as Ec E. subst d.
    rewrite Ascii.eqb_refl in Hb. discriminate Hb.
  - injection E as Ec E. subst c.
    rewrite Ascii.eqb_refl in Ha. discriminate Ha.
  - injection E as Ec E. subst d.
    apply andb_true_iff in Ha. apply andb_true_iff in Hb.
    destruct (IH b (proj2 Ha) (proj2 Hb) E) as [-> ->]. auto.
Qed.

(** X2: the connection string determines the configuration as long as the
    host, the port, the user, the password and the database name contain no
    space; nothing is quoted, so that with a space in a value two different
    configurations give the same connection string. *)
Theorem dsn_of_injective :
  (forall c1 c2,
     no_space (Host c1) = true -> no_space (Port c1) = true ->
     no_space (User c1) = true -> no_space (Password c1) = true ->
     no_space (DBName c1) = true ->
     no_space (Host c2) = true -> no_space (Port c2) = true ->
     no_space (User c2) = true -> no_space (Password c2) = true ->
     no_space (DBName c2) = true ->
     dsn_of c1 = dsn_of c2 -> c1 = c2) /\
  dsn_of (mkDBConfig "db" "5432 user=admin" "secret" "app" "urls" "")
    = dsn_of (mkDBConfig "db" "5432" "secret" "admin user=app" "urls" "").
Proof.
  split; [|reflexivity].
  intros [h1 p1 w1 u1 n1 m1] [h2 p2 w2 u2 n2 m2]; simpl.
  intros Hh1 Hp1 Hu1 Hw1 Hn1 Hh2 Hp2 Hu2 Hw2 Hn2 E.
  unfold dsn_of in E. simpl in E.
  injection E as E.
  apply append_space_inj in E; [|assumption|assumption]. destruct E as [-> E].
  injection E as E.
  apply append_space_inj in E; [|assumption|assumption]. destruct E as [-> E].
  injection E as E.
  apply append_space_inj in E; [|assumption|assumption]. destruct E as [-> E].
  injection E as E.
  apply append_space_inj in E; [|assumption|assumption]. destruct E as [-> E].
  injection E as E.
  apply append_space_inj in E; [|assumption|assumption]. destruct E as [-> E].
  injection E as E. subst. reflexivity.
Qed.

Lemma dsn_of_injective_witness :
  mkDBConfig "db" "5432" "secret" "app" "urls" "disable"
    = mkDBConfig "db" "5432" "secret" "app" "urls" "disable".
Proof.
  apply (proj1 dsn_of_injective); reflexivity.
Defined.





(** ** The identifiers of the entries *)

Lemma wrap64_add_l (a b : Z) : wrap64 (wrap64 a + b) = wrap64 (a + b).
Proof.
  unfold wrap64. f_equal.
  replace ((a + 2 ^ 63) mod 2 ^ 64 - 2 ^ 63 + b + 2 ^ 63)
    with ((a + 2 ^ 63) mod 2 ^ 64 + b) by lia.
  rewrite Zplus_mod_idemp_l. f_equal. lia.
Qed.

(** Two integers less than [2 ^ 64] apart wrap to different values. *)
Lemma wrap64_inj_near (a b : Z) :
  wrap64 a = wrap64 b -> - 2 ^ 64 < a - b < 2 ^ 64 -> a = b.
Proof.
  unfold wrap64. intros E Hab.
  assert (E' : (a + 2 ^ 63) mod 2 ^ 64 = (b + 2 ^ 63) mod 2 ^ 64) by lia.
  pose proof (Z.div_mod (a + 2 ^ 63) (2 ^ 64) ltac:(lia)) as Ha.
  pose proof (Z.div_mod (b + 2 ^ 63) (2 ^ 64) ltac:(lia)) as Hb.
  rewrite E' in Ha.
  assert (Hq : (a + 2 ^ 63) / 2 ^ 64 = (b + 2 ^ 63) / 2 ^ 64) by nia.
  rewrite Hq in Ha. lia.
Qed.

Lemma string_append_inj_l (p a b : string) :
  (p ++ a)%string = (p ++ b)%string -> a = b.
Proof.
  induction p as [|c p IH]; simpl; intros E; [assumption|].
  injection E as E. auto.
Qed.

(** [%d] prints different integers differently. *)
Lemma Sprintf_d_inj (p : string) (a b : Z) : Sprintf_d p a = Sprintf_d p b -> a = b.
Proof.
  unfold Sprintf_d. intros E. apply string_append_inj_l in E.
  assert (Hn : forall z, Z.to_int z <> Decimal.Pos Decimal.Nil /\
                         Z.to_int z <> Decimal.Neg Decimal.Nil).
  { intros [|q|q]; simpl; split; try discriminate;
      intros H; injection H as H; exact (DecimalPos.Unsigned.to_uint_nonnil q H). }
  apply DecimalZ.to_int_inj.
  assert (Some (Z.to_int a) = Some (Z.to_int b)) as [= ->]; [|reflexivity].
  rewrite <- (NilZero.isi (Z.to_int a)), <- (NilZero.isi (Z.to_int b));
    try apply Hn.
  rewrite E. reflexivity.
Qed.

(** The counter values behind the entries built for [l] from [mc]. *)
Lemma entries_from_counters (mc : Z) (l : list URLs) :
  map Id (entries_from mc l)
    = map (fun j => Sprintf_d "msg-" (wrap64 (mc + Z.of_nat j))) (seq 1 (length l)) /\
  map MessageGroupId (entries_from mc l)
    = map (fun j => Sprintf_d "group-" (wrap64 (mc + Z.of_nat j))) (seq 1 (length l)).
Proof.
  revert mc. induction l as [|u l IH]; intros mc; [split; reflexivity|].
  cbn [entries_from map length seq Id MessageGroupId new_entry].
  destruct (IH (wrap64 (mc + 1))) as [E1 E2]. rewrite E1, E2.
  rewrite <- (seq_shift (length l) 1), !map_map.
  split; f_equal; try reflexivity; apply map_ext; intros j;
    rewrite wrap64_add_l; do 2 f_equal; lia.
Qed.

Lemma counters_NoDup (p : string) (mc : Z) (n : nat) :
  Z.of_nat n < 2 ^ 64 ->
  NoDup (map (fun j => Sprintf_d p (wrap64 (mc + Z.of_nat j))) (seq 1 n)).
Proof.
  intros Hn. apply NoDup_map_NoDup_ForallPairs; [|apply seq_NoDup].
  intros a b Ha Hb E. apply in_seq in Ha. apply in_seq in Hb.
  apply Sprintf_d_inj in E. apply wrap64_inj_near in E; lia.
Qed.

Lemma entries_from_NoDup (mc : Z) (l : list URLs) :
  Z.of_nat (length l) < 2 ^ 64 ->
  NoDup (map Id (entries_from mc l)) /\ NoDup (map MessageGroupId (entries_from mc l)).
Proof.
  intros H. destruct (entries_from_counters mc l) as [-> ->].
  split; apply counters_NoDup; assumption.
Qed.

Lemma entries_of_chunks_concat (mc : Z) (cs : list (list URLs)) :
  concat (entries_of_chunks mc cs) = entries_from mc (concat cs).
Proof.
  revert mc. induction cs as [|c cs IH]; intros mc; [reflexivity|].
  cbn [entries_of_chunks concat]. rewrite IH, entries_from_app. reflexivity.
Qed.

Lemma entries_of_chunks_lengths (mc : Z) (cs : list (list URLs)) :
  map (@length Entry) (entries_of_chunks mc cs) = map (@length URLs) cs.
Proof.
  revert mc. induction cs as [|c cs IH]; intros mc; [reflexivity|].
  cbn [entries_of_chunks map]. rewrite IH, entries_from_length. reflexivity.
Qed.

(** The batches submitted for a list of chunks are the batches built for
    them, and the counter ends where the last one left it. *)
Lemma dispatch_chunks_batches env :
  forall (cs : list (list URLs)) (s : State),
    Forall (fun b => In b (entries_of_chunks (messageCount s) cs))
           (submitted (trace_of (forM_ dispatch_chunk cs env s))) /\
    messageCount (state_of (forM_ dispatch_chunk cs env s))
      = count_from (messageCount s) (concat cs).
Proof.
  induction cs as [|c cs IH]; intros s.
  - split; [constructor | reflexivity].
  - cbn [forM_]. unfold bind. rewrite dispatch_chunk_run.
    pose proof (flush_any env (entries_from (messageCount s) c)
                  (counted s (count_from (messageCount s) c))) as H.
    destruct (flush _ env _) as [[[] s1] t1].
    destruct H as (H1 & _ & _ & _ & H5 & _).
    specialize (IH s1). destruct (forM_ dispatch_chunk cs env s1) as [[[] s2] t2].
    unfold trace_of, state_of in *. cbn [fst snd messageCount counted] in *.
    destruct IH as [I1 I2]. rewrite H1 in I1, I2.
    cbn [concat entries_of_chunks].
    rewrite submitted_app, count_from_app. split; [|assumption].
    apply Forall_app. split.
    + eapply Forall_impl; [|exact H5]. intros b ->. left. reflexivity.
    + eapply Forall_impl; [|exact I1]. intros b Hb. right. assumption.
Qed.

(** X5: every batch a tick submits is fit for the queue: it is one of the
    batches built from the consecutive chunks of the fetched records, has
    between one and [BatchSize] entries, and no two entries built in the tick
    share their [Id] or their [MessageGroupId], within a batch or across
    batches. *)
Theorem tick_batches_well_formed env s :
  Forall (fun b =>
            In b (entries_of_chunks (messageCount s)
                    (spec_chunks (Z.to_nat BatchSize) (fetched s))) /\
            1 <= Z.of_nat (length b) <= BatchSize)
         (submitted (trace_of (processURLs env s))) /\
  concat (entries_of_chunks (messageCount s)
            (spec_chunks (Z.to_nat BatchSize) (fetched s)))
    = entries_from (messageCount s) (fetched s) /\
  NoDup (map Id (entries_from (messageCount s) (fetched s))) /\
  NoDup (map MessageGroupId (entries_from (messageCount s) (fetched s))).
Proof.
  split; [|split].
  - rewrite processURLs_run.
    destruct (db_ok env (db_calls s)); [|constructor].
    destruct (fetched s) as [|u urls] eqn:E; [constructor|].
    pose proof (dispatch_chunks_batches env
                  (spec_chunks (Z.to_nat BatchSize) (u :: urls)) (queried s)) as [H _].
    destruct (forM_ _ _ env _) as [[[] s2] t2].
    unfold trace_of in *. cbn [snd submitted messageCount queried] in *.
    eapply Forall_impl; [|exact H]. intros b Hb. split; [assumption|].
    assert (Hl : In (length b)
                    (map (@length URLs) (spec_chunks (Z.to_nat BatchSize) (u :: urls)))).
    { rewrite <- (entries_of_chunks_lengths (messageCount s)).
      apply in_map. assumption. }
    apply in_map_iff in Hl. destruct Hl as (c & Hc & Hin).
    pose proof (chunks_sizes (Z.to_nat BatchSize) (u :: urls) ltac:(vm_compute; lia)) as Hs.
    rewrite Forall_forall in Hs. specialize (Hs c Hin). cbv beta in Hs.
    change (Z.to_nat BatchSize) with 10%nat in Hs. change BatchSize with 10. lia.
  - rewrite entries_of_chunks_concat, chunks_concat. reflexivity.
  - apply entries_from_NoDup.
    pose proof (fetched_length s) as H.
    change (Z.to_nat DatabaseLimit) with 100%nat in H. lia.
Qed.

(** ** The counter *)

Lemma wrap64_range (z : Z) : - 2 ^ 63 <= wrap64 z < 2 ^ 63.
Proof.
  unfold wrap64.
  pose proof (Z.mod_pos_bound (z + 2 ^ 63) (2 ^ 64) ltac:(lia)). lia.
Qed.

Lemma count_from_closed (l : list URLs) :
  forall mc, - 2 ^ 63 <= mc < 2 ^ 63 ->
             count_from mc l = wrap64 (mc + Z.of_nat (length l)).
Proof.
  induction l as [|u l IH]; intros mc Hmc.
  - simpl. rewrite Z.add_0_r. symmetry. apply wrap64_small. assumption.
  - cbn [count_from length]. rewrite IH by apply wrap64_range.
    rewrite wrap64_add_l. f_equal. lia.
Qed.

(** X6: a tick whose fetch succeeds advances [messageCount] by the number of
    fetched records, whatever the queue answers, so that a record fetched
    again gets a new [Id]; a tick whose fetch fails leaves it alone; the
    counter wraps around as an [int] does and stays in the range of one. *)
Theorem tick_advances_counter env s :
  - 2 ^ 63 <= messageCount s < 2 ^ 63 ->
  messageCount (state_of (processURLs env s))
    = (if db_ok env (db_calls s)
       then wrap64 (messageCount s + Z.of_nat (length (fetched s)))
       else messageCount s) /\
  - 2 ^ 63 <= messageCount (state_of (processURLs env s)) < 2 ^ 63 /\
  (db_ok env (db_calls s) = true ->
   messageCount s + Z.of_nat (length (fetched s)) < 2 ^ 63 ->
   messageCount (state_of (processURLs env s))
     = messageCount s + Z.of_nat (length (fetched s))).
Proof.
  intros Hmc.
  assert (E : messageCount (state_of (processURLs env s))
              = (if db_ok env (db_calls s)
                 then wrap64 (messageCount s + Z.of_nat (length (fetched s)))
                 else messageCount s)).
  { rewrite processURLs_run. destruct (db_ok env (db_calls s)); [|reflexivity].
    destruct (fetched s) as [|u urls] eqn:Ef.
    - unfold state_of. cbn [fst snd messageCount queried length].
      rewrite Z.add_0_r. symmetry. apply wrap64_small. assumption.
    - pose proof (dispatch_chunks_batches env
                    (spec_chunks (Z.to_nat BatchSize) (u :: urls)) (queried s)) as [_ H].
      destruct (forM_ _ _ env _) as [[[] s2] t2].
      unfold state_of in *. cbn [fst snd messageCount queried] in *.
      rewrite H, chunks_concat. apply count_from_closed. assumption. }
  split; [exact E|]. split.
  - rewrite E. destruct (db_ok env (db_calls s)); [apply wrap64_range | assumption].
  - intros Hdb Hsmall. rewrite E, Hdb. apply wrap64_small. lia.
Qed.

Lemma tick_advances_counter_witness :
  messageCount (state_of (processURLs (env_rejecting None) (start (rows 1 25)))) = 25.
Proof.
  destruct (tick_advances_counter (env_rejecting None) (start (rows 1 25)))
    as (_ & _ & H).
  - vm_compute. split; [discriminate | reflexivity].
  - rewrite H; [reflexivity | reflexivity | vm_compute; reflexivity].
Defined.

(** ** What the loop keeps of the table *)

Lemma row_kept_refl (t : list Row) : Forall2 row_kept t t.
Proof.
  induction t as [|r t IH]; constructor; [|assumption].
  unfold row_kept. auto.
Qed.

Lemma row_kept_trans (t1 t2 t3 : list Row) :
  Forall2 row_kept t1 t2 -> Forall2 row_kept t2 t3 -> Forall2 row_kept t1 t3.
Proof.
  intros H. revert t3. induction H as [|r1 r2 t1 t2 Hr H IH]; intros t3 H3.
  - inversion H3. constructor.
  - inversion H3 as [|r2' r3 t2' t3' Hr' H' ]; subst. constructor; [|apply IH; assumption].
    unfold row_kept in *. intuition congruence.
Qed.

Lemma row_kept_marked (E : list string) (t : list Row) :
  Forall2 row_kept t (map (marked_by E) t).
Proof.
  induction t as [|r t IH]; constructor; [|assumption].
  unfold row_kept, marked_by.
  destruct (existsb (String.eqb (row_url r)) E); simpl; auto.
Qed.

Lemma row_kept_columns (t t' : list Row) :
  Forall2 row_kept t t' ->
  map row_id t' = map row_id t /\ map row_url t' = map row_url t.
Proof.
  induction 1 as [|r r' t t' (H1 & H2 & _) _ [IH1 IH2]]; [split; reflexivity|].
  simpl. rewrite H1, H2, IH1, IH2. split; reflexivity.
Qed.

Lemma processURLs_keeps_rows env s :
  Forall2 row_kept (table s) (table (state_of (processURLs env s))).
Proof.
  destruct (tick_marks_rows env s) as [_ H]. rewrite H. apply row_kept_marked.
Qed.

(** X7: whatever the store and the queue answer and however long it runs,
    the loop never adds, removes or reorders a row, never changes an id or a
    url, and never unmarks a row: the only change it makes to the table is to
    mark rows. *)
Theorem producer_keeps_rows env (fuel : nat) s :
  Forall2 row_kept (table s) (table (state_of (producer fuel env s))) /\
  map row_id (table (state_of (producer fuel env s))) = map row_id (table s) /\
  map row_url (table (state_of (producer fuel env s))) = map row_url (table s).
Proof.
  assert (H : Forall2 row_kept (table s) (table (state_of (producer fuel env s)))).
  { revert s. induction fuel as [|fuel IH]; intros s.
    - apply row_kept_refl.
    - destruct (done_at env (now s)) eqn:Hd.
      + rewrite (producer_stops _ _ _ Hd). apply row_kept_refl.
      + rewrite (producer_ticks _ _ _ Hd). unfold state_of at 1. cbn [fst snd].
        eapply row_kept_trans; [apply processURLs_keeps_rows|].
        apply (IH (slept (state_of (processURLs env s)) PollingInterval)). }
  split; [exact H | apply row_kept_columns; exact H].
Qed.

(** ** Counting the calls *)

Lemma sendBatch_loop_calls env batch :
  forall (remaining : nat) (attempt : Z) (s : State),
    let '(_, s', tr) := sendBatch_loop remaining attempt batch env s in
    sqs_calls s' = (sqs_calls s + sends tr)%nat.
Proof.
  induction remaining as [|r IH]; intros attempt s.
  - simpl. lia.
  - cbn [sendBatch_loop]. unfold bind at 1. unfold SendMessageBatch at 1.
    destruct (sqs_ok env (sqs_calls s) (done_at env (now s))).
    + unfold bind, log_Printf, ret. simpl. lia.
    + unfold bind, log_Printf, time_Sleep.
      cbn [now table messageCount sqs_calls db_calls].
      match goal with |- context [sendBatch_loop r ?a batch env ?s1] =>
        specialize (IH a s1); destruct (sendBatch_loop r a batch env s1)
          as [[err s'] tr] end.
      cbn [sqs_calls] in IH. rewrite IH. simpl. lia.
Qed.

(** The inner loop makes store calls only: one per entry, no sleep, no
    queue call. *)
Lemma mark_entries_calls env :
  forall (batch : list Entry) (s : State),
    let '(_, s', tr) :=
      forM_ (fun e => Update_processed (MessageBody e)) batch env s in
    sqs_calls s' = sqs_calls s /\
    db_calls s' = (db_calls s + length batch)%nat /\
    length (updates tr) = length batch /\
    Forall (fun c => exists u ok, snd c = EvUpdate u ok) tr /\
    ((forall n, db_ok env n = true) ->
     updates tr = map (fun e => (MessageBody e, true)) batch).
Proof.
  induction batch as [|e batch IH]; intros s.
  - simpl. repeat split; auto.
  - cbn [forM_]. unfold bind at 1. unfold Update_processed at 1.
    match goal with |- context [forM_ _ batch env ?s1] =>
      specialize (IH s1); destruct (forM_ _ batch env s1) as [[[] s'] tr] end.
    cbn [now table messageCount sqs_calls db_calls] in *.
    destruct IH as (I1 & I2 & I3 & I4 & I5).
    cbn [app updates length map]. repeat split.
    + assumption.
    + lia.
    + lia.
    + constructor; [eexists; eexists; reflexivity | assumption].
    + intros Hdb. rewrite (I5 Hdb), Hdb. reflexivity.
Qed.

Lemma sendBatch_backoffs env batch s :
  Forall backoff_event (trace_of (sendBatch batch env s)).
Proof.
  unfold sendBatch.
  pose proof (sendBatch_loop_sleeps env batch (Z.to_nat RetryAttempts) 0 s
                ltac:(lia) ltac:(vm_compute; reflexivity)) as H.
  destruct (sendBatch_loop _ 0 batch env s) as [[err s'] tr].
  unfold trace_of. cbn [snd]. apply Forall_forall. intros [t e] Hin.
  unfold backoff_event. cbn [snd]. destruct e; auto.
  destruct (H t d Hin) as (_ & k & Hk & Hd & _).
  exists k. change (Z.of_nat (Z.to_nat RetryAttempts)) with RetryAttempts in Hk.
  split; [lia | assumption].
Qed.

(** One flushed batch: the calls it makes and what they cost. *)
Lemma flush_calls env batch s :
  sqs_calls (state_of (flush batch env s))
    = (sqs_calls s + sends (trace_of (flush batch env s)))%nat /\
  db_calls (state_of (flush batch env s))
    = (db_calls s + length (updates (trace_of (flush batch env s))))%nat /\
  (length (updates (trace_of (flush batch env s))) <= length batch)%nat /\
  Forall backoff_event (trace_of (flush batch env s)).
Proof.
  unfold flush, bind.
  pose proof (sendBatch_any env batch s) as Hany.
  pose proof (sendBatch_backoffs env batch s) as Hb.
  pose proof (sendBatch_loop_calls env batch (Z.to_nat RetryAttempts) 0 s) as Hc.
  fold (sendBatch batch env s) in Hc.
  destruct (sendBatch batch env s) as [[err s1] tr1].
  destruct Hany as (_ & _ & Hdb & _ & _ & _ & Hu & _).
  unfold state_of, trace_of in *. cbn [fst snd] in *.
  destruct err as [e|].
  - unfold log_Printf. cbn [fst snd].
    rewrite sends_app, updates_app, Hu. simpl. rewrite Nat.add_0_r.
    repeat split; try lia; try assumption.
    apply Forall_app. split; [assumption|]. constructor; [exact I | constructor].
  - pose proof (mark_entries_calls env batch s1) as G.
    destruct (forM_ _ batch env s1) as [[[] s2] tr2].
    cbn [fst snd] in *.
    destruct G as (G1 & G2 & G3 & G4 & _).
    rewrite sends_app, updates_app, Hu. cbn [app].
    assert (Hs2 : sends tr2 = O).
    { clear - G4. induction G4 as [|[t e] tr (u & ok & E) _ IH]; [reflexivity|].
      cbn [snd] in E. subst e. exact IH. }
    rewrite Hs2. repeat split; try lia.
    apply Forall_app. split; [assumption|].
    eapply Forall_impl; [|exact G4]. intros [t e] (u & ok & E).
    cbn [snd] in E. subst e. exact I.
Qed.

Lemma dispatch_chunks_calls env :
  forall (cs : list (list URLs)) (s : State),
    sqs_calls (state_of (forM_ dispatch_chunk cs env s))
      = (sqs_calls s + sends (trace_of (forM_ dispatch_chunk cs env s)))%nat /\
    db_calls (state_of (forM_ dispatch_chunk cs env s))
      = (db_calls s + length (updates (trace_of (forM_ dispatch_chunk cs env s))))%nat /\
    (sends (trace_of (forM_ dispatch_chunk cs env s))
       <= Z.to_nat RetryAttempts * length cs)%nat /\
    (length (updates (trace_of (forM_ dispatch_chunk cs env s)))
       <= length (concat cs))%nat /\
    Forall backoff_event (trace_of (forM_ dispatch_chunk cs env s)).
Proof.
  induction cs as [|c cs IH]; intros s.
  - unfold state_of, trace_of. simpl. repeat split; auto; lia.
  - cbn [forM_]. unfold bind. rewrite dispatch_chunk_run.
    pose proof (flush_calls env (entries_from (messageCount s) c)
                  (counted s (count_from (messageCount s) c))) as H.
    pose proof (flush_any env (entries_from (messageCount s) c)
                  (counted s (count_from (messageCount s) c))) as Hany.
    destruct (flush _ env _) as [[[] s1] t1].
    destruct Hany as (_ & _ & _ & Hs & _).
    specialize (IH s1). destruct (forM_ dispatch_chunk cs env s1) as [[[] s2] t2].
    unfold state_of, trace_of in *. cbn [fst snd sqs_calls db_calls counted] in *.
    destruct H as (H1 & H2 & H3 & H4). destruct IH as (I1 & I2 & I3 & I4 & I5).
    rewrite entries_from_length in H3.
    rewrite sends_app, updates_app, !length_app. cbn [concat length].
    rewrite length_app.
    repeat split; try lia. apply Forall_app. split; assumption.
Qed.

(** X8: the calls of one tick are bounded: one store read, at most
    [RetryAttempts] submissions per chunk, thirty at most, and at most one
    mark call per fetched record, a hundred at most; the two call counters
    move by exactly the calls of the trace. *)
Theorem tick_call_budget env s :
  finds (trace_of (processURLs env s)) = 1%nat /\
  (sends (trace_of (processURLs env s))
     <= Z.to_nat RetryAttempts
        * length (spec_chunks (Z.to_nat BatchSize) (fetched s)))%nat /\
  (sends (trace_of (processURLs env s)) <= 30)%nat /\
  (length (updates (trace_of (processURLs env s))) <= length (fetched s))%nat /\
  (length (updates (trace_of (processURLs env s))) <= 100)%nat /\
  sqs_calls (state_of (processURLs env s))
    = (sqs_calls s + sends (trace_of (processURLs env s)))%nat /\
  db_calls (state_of (processURLs env s))
    = (db_calls s + 1 + length (updates (trace_of (processURLs env s))))%nat.
Proof.
  pose proof (processURLs_any env s) as Hany.
  pose proof (fetched_length s) as Hl.
  change (Z.to_nat DatabaseLimit) with 100%nat in Hl.
  assert (Hc : (length (spec_chunks (Z.to_nat BatchSize) (fetched s)) <= 10)%nat).
  { rewrite chunks_length by (vm_compute; lia).
    change (Z.to_nat BatchSize) with 10%nat.
    apply Nat.lt_succ_r. apply Nat.Div0.div_lt_upper_bound. lia. }
  change (Z.to_nat RetryAttempts) with 3%nat.
  revert Hany. rewrite processURLs_run.
  destruct (db_ok env (db_calls s)).
  - destruct (fetched s) as [|u urls] eqn:E.
    + intros _. unfold state_of, trace_of. simpl. repeat split; lia.
    + pose proof (dispatch_chunks_calls env
                    (spec_chunks (Z.to_nat BatchSize) (u :: urls)) (queried s)) as H.
      destruct (forM_ _ _ env _) as [[[] s2] t2].
      unfold state_of, trace_of in *.
      cbn [fst snd sqs_calls db_calls queried finds sends updates] in *.
      intros (_ & _ & _ & _ & Hf).
      destruct H as (H1 & H2 & H3 & H4 & _).
      rewrite chunks_concat in H4.
      change (Z.to_nat RetryAttempts) with 3%nat in H3.
      repeat split; try lia; try assumption.
  - intros _. unfold state_of, trace_of. simpl. repeat split; lia.
Qed.

(** X9: a tick sleeps only to back off: every sleep in its trace lasts
    [RetryBackoff] times one of 1, 2, 3, and the tick as a whole sleeps at
    most [TickMax], ten batches retried to the end. *)
Theorem tick_sleeps_are_backoffs env s :
  Forall backoff_event (trace_of (processURLs env s)) /\
  now s <= now (state_of (processURLs env s)) <= now s + TickMax /\
  TickMax = 120 * Second.
Proof.
  split; [|split; [apply processURLs_duration | reflexivity]].
  rewrite processURLs_run.
  destruct (db_ok env (db_calls s)).
  - destruct (fetched s) as [|u urls] eqn:E.
    + unfold trace_of. cbn [snd]. repeat constructor.
    + pose proof (dispatch_chunks_calls env
                    (spec_chunks (Z.to_nat BatchSize) (u :: urls)) (queried s)) as H.
      destruct (forM_ _ _ env _) as [[[] s2] t2].
      unfold trace_of in *. cbn [snd] in *.
      destruct H as (_ & _ & _ & _ & H).
      constructor; [exact I|]. constructor; [exact I | exact H].
  - unfold trace_of. cbn [snd]. repeat constructor.
Qed.

(** ** When everything answers *)

Lemma flush_all_ok env batch s :
  (forall n f, sqs_ok env n f = true) -> (forall n, db_ok env n = true) ->
  let '(_, s', tr) := flush batch env s in
  now s' = now s /\ sends tr = 1%nat /\
  updates tr = map (fun e => (MessageBody e, true)) batch.
Proof.
  intros Hq Hdb. unfold flush, bind.
  rewrite (sendBatch_first_try env batch s (Hq _ _)).
  pose proof (mark_entries_calls env batch (sent s (now s) (S (sqs_calls s)))) as G.
  pose proof (mark_entries_any env batch (sent s (now s) (S (sqs_calls s)))) as G'.
  destruct (forM_ _ batch env _) as [[[] s2] tr2].
  destruct G as (_ & _ & _ & G4 & G5). destruct G' as (_ & Hn & _ & _ & G6 & _).
  cbn [now sent] in Hn. rewrite sends_app, updates_app, (sends_submitted tr2), G6.
  split; [assumption|]. split; [reflexivity|]. apply G5. assumption.
Qed.

Lemma dispatch_chunks_all_ok env :
  (forall n f, sqs_ok env n f = true) -> (forall n, db_ok env n = true) ->
  forall (cs : list (list URLs)) (s : State),
    let '(_, s', tr) := forM_ dispatch_chunk cs env s in
    now s' = now s /\ sends tr = length cs /\
    updates tr = map (fun u => (URL u, true)) (concat cs).
Proof.
  intros Hq Hdb. induction cs as [|c cs IH]; intros s.
  - simpl. auto.
  - cbn [forM_]. unfold bind. rewrite dispatch_chunk_run.
    pose proof (flush_all_ok env (entries_from (messageCount s) c)
                  (counted s (count_from (messageCount s) c)) Hq Hdb) as H.
    destruct (flush _ env _) as [[[] s1] t1].
    specialize (IH s1). destruct (forM_ dispatch_chunk cs env s1) as [[[] s2] t2].
    cbn [now counted] in H. destruct H as (H1 & H2 & H3). destruct IH as (I1 & I2 & I3).
    rewrite sends_app, updates_app, H3, I3. cbn [concat length].
    rewrite map_app. split; [congruence|]. split; [lia|]. f_equal.
    rewrite <- (map_map MessageBody (fun x => (x, true))), entries_from_bodies, map_map.
    reflexivity.
Qed.

(** What is left to deliver once the rows carrying [E] are marked. *)
Lemma unprocessed_marked (E : list string) (t : list Row) :
  filter (fun r => negb (row_processed r)) (map (marked_by E) t)
    = filter (fun r => negb (existsb (String.eqb (row_url r)) E))
             (filter (fun r => negb (row_processed r)) t).
Proof.
  induction t as [|r t IH]; [reflexivity|].
  cbn [map filter].
  destruct (existsb (String.eqb (row_url r)) E) eqn:Ex.
  - assert (Hm : marked_by E r = mkRow (row_id r) (row_url r) true)
      by (unfold marked_by; rewrite Ex; reflexivity).
    rewrite Hm. cbn [row_processed negb]. rewrite IH.
    destruct (negb (row_processed r)); [|reflexivity].
    cbn [filter]. rewrite Ex. reflexivity.
  - assert (Hm : marked_by E r = r)
      by (unfold marked_by; rewrite Ex; reflexivity).
    rewrite Hm, IH. destruct (negb (row_processed r)); [|reflexivity].
    cbn [filter]. rewrite Ex. reflexivity.
Qed.

Lemma filter_none {A} (p : A -> bool) (l : list A) :
  (forall x, In x l -> p x = false) -> filter p l = [].
Proof.
  induction l as [|x l IH]; intros H; [reflexivity|].
  cbn [filter]. rewrite (H x) by (left; reflexivity).
  apply IH. intros y Hy. apply H. right. assumption.
Qed.

Lemma filter_length_le {A} (p : A -> bool) (l : list A) :
  (length (filter p l) <= length l)%nat.
Proof.
  induction l as [|x l IH]; [apply Nat.le_refl|].
  cbn [filter]. destruct (p x); simpl; lia.
Qed.

Lemma fetched_urls s :
  map URL (fetched s) = map row_url (firstn (Z.to_nat DatabaseLimit) (unprocessed s)).
Proof.
  unfold fetched, unprocessed. rewrite <- firstn_map, map_map.
  rewrite firstn_map. reflexivity.
Qed.

(** Marking the urls of the fetched records takes at least those records
    out of what is left to deliver. *)
Lemma unprocessed_after_fetch (E : list string) (s : State) :
  incl (map URL (fetched s)) E ->
  (length (filter (fun r => negb (row_processed r)) (map (marked_by E) (table s)))
     <= length (unprocessed s) - Z.to_nat DatabaseLimit)%nat.
Proof.
  intros HE. rewrite unprocessed_marked. fold (unprocessed s).
  rewrite fetched_urls in HE.
  rewrite <- (firstn_skipn (Z.to_nat DatabaseLimit) (unprocessed s)) at 1.
  rewrite filter_app, length_app.
  rewrite (filter_none _ (firstn (Z.to_nat DatabaseLimit) (unprocessed s))).
  - pose proof (filter_length_le
                  (fun r => negb (existsb (String.eqb (row_url r)) E))
                  (skipn (Z.to_nat DatabaseLimit) (unprocessed s))) as H.
    rewrite length_skipn in H. simpl. exact H.
  - intros r Hr. apply negb_false_iff. apply existsb_exists.
    exists (row_url r). split; [|apply String.eqb_refl].
    apply HE. apply in_map. assumption.
Qed.

(** One tick with everything answering, as the loop needs it. *)
Lemma tick_delivers_page env s :
  (forall n f, sqs_ok env n f = true) -> (forall n, db_ok env n = true) ->
  (length (unprocessed (state_of (processURLs env s)))
     <= length (unprocessed s) - Z.to_nat DatabaseLimit)%nat.
Proof.
  intros Hq Hdb.
  assert (H3 : updates (trace_of (processURLs env s))
               = map (fun u => (URL u, true)) (fetched s)).
  { rewrite processURLs_run, Hdb.
    destruct (fetched s) as [|u urls] eqn:E; [reflexivity|].
    pose proof (dispatch_chunks_all_ok env Hq Hdb
                  (spec_chunks (Z.to_nat BatchSize) (u :: urls)) (queried s)) as H.
    destruct (forM_ _ _ env _) as [[[] s2] t2].
    unfold trace_of. cbn [snd updates] in *.
    rewrite chunks_concat in H. apply H. }
  destruct (tick_marks_rows env s) as [_ Ht].
  assert (Hex : executed (updates (trace_of (processURLs env s))) = map URL (fetched s)).
  { rewrite H3. unfold executed. clear.
    induction (fetched s) as [|u l IH]; [reflexivity|].
    cbn [map filter snd fst]. f_equal. exact IH. }
  rewrite Hex in Ht. unfold unprocessed at 1. rewrite Ht.
  apply unprocessed_after_fetch. apply incl_refl.
Qed.

(** X10: when the store and the queue answer every call, a tick submits each
    chunk once, does not sleep, marks every fetched record (and every other
    row with one of their urls), and so takes at least [DatabaseLimit] rows,
    or all of them, out of what is left to deliver. *)
Theorem tick_all_answering env s :
  (forall n f, sqs_ok env n f = true) -> (forall n, db_ok env n = true) ->
  now (state_of (processURLs env s)) = now s /\
  sends (trace_of (processURLs env s))
    = length (spec_chunks (Z.to_nat BatchSize) (fetched s)) /\
  updates (trace_of (processURLs env s))
    = map (fun u => (URL u, true)) (fetched s) /\
  table (state_of (processURLs env s))
    = map (marked_by (map URL (fetched s))) (table s) /\
  (length (unprocessed (state_of (processURLs env s)))
     <= length (unprocessed s) - Z.to_nat DatabaseLimit)%nat.
Proof.
  intros Hq Hdb.
  assert (H : now (state_of (processURLs env s)) = now s /\
              sends (trace_of (processURLs env s))
                = length (spec_chunks (Z.to_nat BatchSize) (fetched s)) /\
              updates (trace_of (processURLs env s))
                = map (fun u => (URL u, true)) (fetched s)).
  { rewrite processURLs_run, Hdb.
    destruct (fetched s) as [|u urls] eqn:E.
    - unfold state_of, trace_of. simp spec_chunks. simpl. auto.
    - pose proof (dispatch_chunks_all_ok env Hq Hdb
                    (spec_chunks (Z.to_nat BatchSize) (u :: urls)) (queried s)) as H.
      destruct (forM_ _ _ env _) as [[[] s2] t2].
      unfold state_of, trace_of. cbn [fst snd now queried sends updates] in *.
      rewrite chunks_concat in H. exact H. }
  destruct H as (H1 & H2 & H3).
  destruct (tick_marks_rows env s) as [_ Ht].
  assert (Hex : executed (updates (trace_of (processURLs env s))) = map URL (fetched s)).
  { rewrite H3. unfold executed. clear.
    induction (fetched s) as [|u l IH]; [reflexivity|].
    cbn [map filter snd fst]. f_equal. exact IH. }
  rewrite Hex in Ht.
  split; [assumption|]. split; [assumption|]. split; [assumption|].
  split; [assumption|].
  unfold unprocessed at 1. rewrite Ht.
  apply unprocessed_after_fetch. apply incl_refl.
Qed.

Lemma tick_all_answering_witness :
  length (unprocessed (state_of (processURLs env_ok (start (rows 1 25))))) = 0%nat /\
  now (state_of (processURLs env_ok (start (rows 1 25)))) = 0.
Proof.
  destruct (tick_all_answering env_ok (start (rows 1 25))) as (H1 & _ & _ & _ & H5).
  - intros n f. reflexivity.
  - intros n. reflexivity.
  - split; [|exact H1].
    assert (E : length (unprocessed (start (rows 1 25))) = 25%nat)
      by (vm_compute; reflexivity).
    rewrite E in H5. change (Z.to_nat DatabaseLimit) with 100%nat in H5. lia.
Defined.

(** X11: when the store and the queue answer every call and nobody cancels,
    each iteration of the loop delivers a page: after [k] iterations at most
    [n - DatabaseLimit * k] of the [n] rows that were to deliver are left, so
    that the table is drained after [n / DatabaseLimit], rounded up,
    iterations. *)
Theorem producer_drains env (fuel : nat) s :
  cancel_at env = None ->
  (forall n f, sqs_ok env n f = true) -> (forall n, db_ok env n = true) ->
  result_of (producer fuel env s) = OutOfFuel /\
  (length (unprocessed (state_of (producer fuel env s)))
     <= length (unprocessed s) - Z.to_nat DatabaseLimit * fuel)%nat /\
  ((length (unprocessed s) <= Z.to_nat DatabaseLimit * fuel)%nat ->
   Forall (fun r => row_processed r = true)
          (table (state_of (producer fuel env s)))).
Proof.
  intros Hc Hq Hdb.
  assert (Hd : forall s', done_at env (now s') = false)
    by (intros s'; unfold done_at; rewrite Hc; reflexivity).
  assert (H : result_of (producer fuel env s) = OutOfFuel /\
              (length (unprocessed (state_of (producer fuel env s)))
                 <= length (unprocessed s) - Z.to_nat DatabaseLimit * fuel)%nat).
  { revert s. induction fuel as [|fuel IH]; intros s.
    - unfold result_of, state_of. simpl. split; [reflexivity | lia].
    - rewrite (producer_ticks _ _ _ (Hd s)).
      destruct (IH (slept (state_of (processURLs env s)) PollingInterval)) as [I1 I2].
      pose proof (tick_delivers_page env s Hq Hdb) as H5.
      unfold result_of, state_of in *. cbn [fst snd] in *.
      split; [assumption|].
      unfold unprocessed in I2 at 2. cbn [table slept] in I2.
      fold (unprocessed (snd (fst (processURLs env s)))) in I2. lia. }
  destruct H as [H1 H2]. split; [assumption|]. split; [assumption|].
  intros Hn. apply Forall_forall. intros r Hr.
  destruct (row_processed r) eqn:Hp; [reflexivity|]. exfalso.
  assert (Hin : In r (unprocessed (state_of (producer fuel env s))))
    by (unfold unprocessed; apply filter_In; rewrite Hp; auto).
  destruct (unprocessed (state_of (producer fuel env s))); [exact Hin|].
  cbn [length] in H2. lia.
Qed.

Lemma producer_drains_witness :
  Forall (fun r => row_processed r = true)
         (table (state_of (producer 1 env_ok (start (rows 1 25))))).
Proof.
  destruct (producer_drains env_ok 1 (start (rows 1 25))) as (_ & _ & H).
  - reflexivity.
  - intros n f. reflexivity.
  - intros n. reflexivity.
  - apply H.
    assert (E : length (unprocessed (start (rows 1 25))) = 25%nat)
      by (vm_compute; reflexivity).
    rewrite E. change (Z.to_nat DatabaseLimit) with 100%nat. lia.
Defined.

(** ** When the queue rejects everything *)

Lemma spec_failed_attempts_end (k : nat) (batch : list Entry) :
  forall j t, snd (spec_failed_attempts k j t batch) = t + backoff_total k j.
Proof.
  induction k as [|k IH]; intros j t; cbn [spec_failed_attempts backoff_total].
  - simpl. lia.
  - specialize (IH (j + 1) (t + RetryBackoff * (j + 1))).
    destruct (spec_failed_attempts k (j + 1) (t + RetryBackoff * (j + 1)) batch).
    cbn [snd] in *. lia.
Qed.

Lemma flush_rejected env batch s :
  (forall n f, sqs_ok env n f = false) ->
  let '(_, s', tr) := flush batch env s in
  table s' = table s /\ now s' = now s + BatchMax /\
  sends tr = Z.to_nat RetryAttempts /\ updates tr = [].
Proof.
  intros Hq. unfold flush, bind, sendBatch.
  pose proof (sendBatch_loop_exhausted env batch (Z.to_nat RetryAttempts) 0 s
                ltac:(lia) ltac:(vm_compute; reflexivity) (fun j f _ => Hq _ f)) as H.
  pose proof (spec_failed_attempts_end (Z.to_nat RetryAttempts) batch 0 (now s)) as He.
  pose proof (spec_failed_attempts_sends (Z.to_nat RetryAttempts) 0 (now s) batch) as Hs.
  pose proof (sendBatch_loop_any env batch (Z.to_nat RetryAttempts) 0 s) as Hany.
  destruct (spec_failed_attempts (Z.to_nat RetryAttempts) 0 (now s) batch) as [evs t'].
  rewrite H in *. cbn [fst snd] in *. unfold log_Printf.
  destruct Hany as (_ & _ & _ & _ & _ & _ & _ & Hu & _).
  rewrite sends_app, updates_app, Hu, Hs. cbn [sent table now].
  split; [reflexivity|]. split; [exact He|]. split; [simpl; lia | reflexivity].
Qed.

Lemma dispatch_chunks_rejected env :
  (forall n f, sqs_ok env n f = false) ->
  forall (cs : list (list URLs)) (s : State),
    let '(_, s', tr) := forM_ dispatch_chunk cs env s in
    table s' = table s /\ now s' = now s + Z.of_nat (length cs) * BatchMax /\
    sends tr = (Z.to_nat RetryAttempts * length cs)%nat /\ updates tr = [].
Proof.
  intros Hq. induction cs as [|c cs IH]; intros s.
  - simpl. repeat split; lia.
  - cbn [forM_]. unfold bind. rewrite dispatch_chunk_run.
    pose proof (flush_rejected env (entries_from (messageCount s) c)
                  (counted s (count_from (messageCount s) c)) Hq) as H.
    destruct (flush _ env _) as [[[] s1] t1].
    specialize (IH s1). destruct (forM_ dispatch_chunk cs env s1) as [[[] s2] t2].
    cbn [now table counted] in H.
    destruct H as (H1 & H2 & H3 & H4). destruct IH as (I1 & I2 & I3 & I4).
    rewrite sends_app, updates_app, H4, I4. cbn [length].
    repeat split; [congruence | lia | lia].
Qed.

(** Every url a tick submits is the url of a record it fetched. *)
Lemma entries_of_chunks_bodies (cs : list (list URLs)) :
  forall mc b, In b (entries_of_chunks mc cs) ->
               exists c, In c cs /\ map MessageBody b = map URL c.
Proof.
  induction cs as [|c cs IH]; intros mc b; cbn [entries_of_chunks]; [intros []|].
  intros [<- | H].
  - exists c. split; [left; reflexivity | apply entries_from_bodies].
  - destruct (IH _ _ H) as (c' & Hc & E). exists c'. split; [right|]; assumption.
Qed.

Lemma tick_submits_fetched env s :
  Forall (fun b => incl (map MessageBody b) (map URL (fetched s)))
         (submitted (trace_of (processURLs env s))).
Proof.
  rewrite processURLs_run.
  destruct (db_ok env (db_calls s)); [|constructor].
  destruct (fetched s) as [|u urls] eqn:E; [constructor|].
  pose proof (dispatch_chunks_batches env
                (spec_chunks (Z.to_nat BatchSize) (u :: urls)) (queried s)) as [H _].
  destruct (forM_ _ _ env _) as [[[] s2] t2].
  unfold trace_of in *. cbn [snd submitted] in *.
  eapply Forall_impl; [|exact H]. intros b Hb.
  apply entries_of_chunks_bodies in Hb. destruct Hb as (c & Hc & ->).
  intros x Hx. rewrite <- (chunks_concat (Z.to_nat BatchSize) (u :: urls)).
  rewrite concat_map. apply in_concat. exists (map URL c).
  split; [apply in_map; assumption | assumption].
Qed.


(** X12: when the queue rejects every submission, a tick marks nothing and
    leaves the table as it was, and, its fetch having succeeded, submits each
    chunk [RetryAttempts] times and sleeps the whole [BatchMax], twelve
    seconds, for each. *)
Theorem tick_all_rejected env s :
  (forall n f, sqs_ok env n f = false) ->
  table (state_of (processURLs env s)) = table s /\
  updates (trace_of (processURLs env s)) = [] /\
  (db_ok env (db_calls s) = true ->
   sends (trace_of (processURLs env s))
     = (Z.to_nat RetryAttempts
        * length (spec_chunks (Z.to_nat BatchSize) (fetched s)))%nat /\
   now (state_of (processURLs env s))
     = now s + Z.of_nat (length (spec_chunks (Z.to_nat BatchSize) (fetched s)))
               * BatchMax).
Proof.
  intros Hq. rewrite processURLs_run.
  destruct (db_ok env (db_calls s)).
  - destruct (fetched s) as [|u urls] eqn:E.
    + unfold state_of, trace_of. simp spec_chunks. simpl.
      repeat split; lia.
    + pose proof (dispatch_chunks_rejected env Hq
                    (spec_chunks (Z.to_nat BatchSize) (u :: urls)) (queried s)) as H.
      destruct (forM_ _ _ env _) as [[[] s2] t2].
      unfold state_of, trace_of. cbn [fst snd now table queried sends updates] in *.
      destruct H as (H1 & H2 & H3 & H4). repeat split; assumption.
  - unfold state_of, trace_of. simpl. repeat split; discriminate.
Qed.

Lemma tick_all_rejected_witness :
  sends (trace_of (processURLs (env_rejecting None) (start (rows 1 25)))) = 9%nat /\
  now (state_of (processURLs (env_rejecting None) (start (rows 1 25)))) = 36 * Second.
Proof.
  destruct (tick_all_rejected (env_rejecting None) (start (rows 1 25)))
    as (_ & _ & H).
  - intros n f. reflexivity.
  - destruct (H eq_refl) as [H1 H2]. rewrite H1, H2.
    split; vm_compute; reflexivity.
Defined.



(** ** What a tick submits, and what it fetches next *)

Lemma In_firstn {A} (n : nat) (l : list A) (x : A) : In x (firstn n l) -> In x l.
Proof.
  intros H. rewrite <- (firstn_skipn n l). apply in_or_app. left. assumption.
Qed.

(** X14: a tick submits nothing but what it fetched: every entry of every
    batch it submits carries the url of a row that was not marked when the
    tick began. *)
Theorem tick_submits_pending_only env s :
  forall b e,
    In b (submitted (trace_of (processURLs env s))) -> In e b ->
    exists r, In r (table s) /\ row_processed r = false /\ row_url r = MessageBody e.
Proof.
  intros b e Hb He.
  pose proof (tick_submits_fetched env s) as H.
  rewrite Forall_forall in H.
  specialize (H b Hb (MessageBody e) (in_map _ _ _ He)).
  apply in_map_iff in H. destruct H as (u & Eu & Hu).
  unfold fetched in Hu. apply In_firstn in Hu.
  apply in_map_iff in Hu. destruct Hu as (r & Er & Hr).
  apply filter_In in Hr. destruct Hr as [Hr Hp].
  exists r. split; [assumption|]. split.
  - destruct (row_processed r); [discriminate Hp | reflexivity].
  - rewrite <- Eu, <- Er. reflexivity.
Qed.

Lemma tick_submits_pending_only_witness :
  exists r, In r (rows 1 3) /\ row_processed r = false /\
            row_url r = row_url (row_n 2).
Proof.
  destruct (tick_submits_pending_only env_ok (start (rows 1 3))
              (entries_from 0 (map scan (rows 1 3)))
              (new_entry 2 (scan (row_n 2)))) as (r & H).
  - vm_compute. left. reflexivity.
  - vm_compute. right. left. reflexivity.
  - exists r. exact H.
Defined.




(** ** One acceptance per batch *)

Lemma sendBatch_loop_accepted_last env batch :
  forall (remaining : nat) (attempt : Z) (s : State),
    let '(err, s', tr) := sendBatch_loop remaining attempt batch env s in
    err = None ->
    exists pre, tr = pre ++ [(now s', EvSend batch true);
                             (now s', EvLog (LogSent (Z.of_nat (length batch))))] /\
                accepted pre = [] /\ (sends pre < remaining)%nat.
Proof.
  induction remaining as [|r IH]; intros attempt s.
  - simpl. discriminate.
  - cbn [sendBatch_loop]. unfold bind at 1. unfold SendMessageBatch at 1.
    destruct (sqs_ok env (sqs_calls s) (done_at env (now s))).
    + unfold bind, log_Printf, ret. cbn [now]. intros _.
      exists []. repeat split. simpl. lia.
    + unfold bind, log_Printf, time_Sleep.
      cbn [now table messageCount sqs_calls db_calls].
      match goal with |- context [sendBatch_loop r ?a batch env ?s1] =>
        specialize (IH a s1); destruct (sendBatch_loop r a batch env s1)
          as [[err s'] tr] end.
      intros Herr. destruct (IH Herr) as (pre & E & Ha & Hs).
      eexists (_ :: _ :: _ :: pre). rewrite E. split; [reflexivity|].
      split; [exact Ha | simpl; lia].
Qed.

(** X16: [sendBatch] returns [nil] exactly when the queue accepted a
    submission, and then that submission is its last call: it never submits
    a batch again once it was accepted. It submits nothing but the batch it
    was given, and touches neither the table, nor the counter, nor the
    store. *)
Theorem sendBatch_stops_at_acceptance env batch s :
  (result_of (sendBatch batch env s) = None <->
   accepted (trace_of (sendBatch batch env s)) = [batch]) /\
  (result_of (sendBatch batch env s) = None ->
   exists pre,
     trace_of (sendBatch batch env s)
       = pre ++ [(now (state_of (sendBatch batch env s)), EvSend batch true);
                 (now (state_of (sendBatch batch env s)),
                  EvLog (LogSent (Z.of_nat (length batch))))] /\
     accepted pre = []) /\
  (result_of (sendBatch batch env s) <> None ->
   accepted (trace_of (sendBatch batch env s)) = []) /\
  Forall (fun b => b = batch) (submitted (trace_of (sendBatch batch env s))) /\
  table (state_of (sendBatch batch env s)) = table s /\
  messageCount (state_of (sendBatch batch env s)) = messageCount s /\
  db_calls (state_of (sendBatch batch env s)) = db_calls s /\
  updates (trace_of (sendBatch batch env s)) = [] /\
  finds (trace_of (sendBatch batch env s)) = O.
Proof.
  pose proof (sendBatch_any env batch s) as H.
  pose proof (sendBatch_loop_accepted_last env batch (Z.to_nat RetryAttempts) 0 s) as HL.
  fold (sendBatch batch env s) in HL.
  destruct (sendBatch batch env s) as [[err s'] tr].
  unfold result_of, state_of, trace_of. cbn [fst snd].
  destruct H as (H1 & H2 & H3 & _ & _ & H6 & H7 & H8 & H9).
  split; [|split; [|split]].
  - rewrite H9. destruct err; split; intros E; try reflexivity; discriminate E.
  - intros E. destruct (HL E) as (pre & Ep & Ha & _). exists pre. auto.
  - intros E. rewrite H9. destruct err; [reflexivity | contradiction].
  - repeat split; assumption.
Qed.

Lemma sendBatch_stops_at_acceptance_witness :
  accepted (trace_of (sendBatch batch2 (env_accepting [1%nat; 2%nat]) (start [])))
    = [batch2] /\
  sends (trace_of (sendBatch batch2 (env_accepting [1%nat; 2%nat]) (start []))) = 2%nat.
Proof.
  destruct (sendBatch_stops_at_acceptance (env_accepting [1%nat; 2%nat]) batch2 (start []))
    as (H1 & _).
  split; [apply (proj1 H1); reflexivity | vm_compute; reflexivity].
Defined.

(** ** How the loop ends and how often it polls *)

(** X17: nothing but the cancellation ends the loop: whatever the store and
    the queue answer, the loop leaves only at an instant on or after the
    cancellation, with the shutdown line as its last log; without a
    cancellation it runs for as long as it is let. *)
Theorem producer_exit_only_on_cancel env (fuel : nat) s :
  (result_of (producer fuel env s) = Stopped ->
   exists c pre,
     cancel_at env = Some c /\
     c <= now (state_of (producer fuel env s)) /\
     trace_of (producer fuel env s)
       = pre ++ [(now (state_of (producer fuel env s)), EvLog LogShuttingDown)]) /\
  (cancel_at env = None -> result_of (producer fuel env s) = OutOfFuel).
Proof.
  revert s. induction fuel as [|fuel IH]; intros s.
  - unfold result_of. simpl. split; [discriminate | reflexivity].
  - destruct (done_at env (now s)) eqn:Hd.
    + rewrite (producer_stops _ _ _ Hd).
      unfold result_of, state_of, trace_of. cbn [fst snd].
      unfold done_at in Hd. destruct (cancel_at env) as [c|]; [|discriminate Hd].
      apply Z.leb_le in Hd. split; [|discriminate].
      intros _. exists c, []. auto.
    + rewrite (producer_ticks _ _ _ Hd).
      destruct (IH (slept (state_of (processURLs env s)) PollingInterval)) as [I1 I2].
      unfold result_of, state_of, trace_of in *. cbn [fst snd] in *.
      split; [|exact I2].
      intros E. destruct (I1 E) as (c & pre & Hc & Hle & Etr).
      exists c. eexists. split; [exact Hc|]. split; [exact Hle|].
      rewrite Etr. rewrite app_comm_cons, app_assoc. reflexivity.
Qed.

Lemma producer_exit_only_on_cancel_witness :
  result_of (producer 50 env_store_down (start (rows 1 3))) = OutOfFuel.
Proof.
  apply (proj2 (producer_exit_only_on_cancel env_store_down 50 (start (rows 1 3)))).
  reflexivity.
Defined.

Lemma find_times_app t1 t2 : find_times (t1 ++ t2) = find_times t1 ++ find_times t2.
Proof.
  induction t1 as [|[t e] t1 IH]; simpl; [reflexivity|].
  destruct e; simpl; rewrite IH; reflexivity.
Qed.

Lemma find_times_none tr : finds tr = O -> find_times tr = [].
Proof.
  induction tr as [|[t e] tr IH]; simpl; [reflexivity|].
  destruct e; simpl; auto; discriminate.
Qed.

(** A tick reads the store once, as the first thing it does. *)
Lemma processURLs_find_time env s :
  find_times (trace_of (processURLs env s)) = [now s].
Proof.
  rewrite processURLs_run.
  destruct (db_ok env (db_calls s)); [|reflexivity].
  destruct (fetched s) as [|u urls] eqn:E; [reflexivity|].
  pose proof (dispatch_chunks_any env
                (spec_chunks (Z.to_nat BatchSize) (u :: urls)) (queried s)) as H.
  destruct (forM_ _ _ env _) as [[[] s2] t2].
  destruct H as (_ & _ & _ & _ & H & _).
  unfold trace_of. cbn [snd find_times]. rewrite (find_times_none _ H). reflexivity.
Qed.

(** X18: the loop reads the store at most once per [PollingInterval]:
    whatever the replies, two successive fetches are at least ten seconds
    apart, and there are no more fetches than iterations. *)
Theorem producer_polling_cadence env (fuel : nat) s :
  spaced PollingInterval (find_times (trace_of (producer fuel env s))) /\
  Forall (fun t => now s <= t) (find_times (trace_of (producer fuel env s))) /\
  (length (find_times (trace_of (producer fuel env s))) <= fuel)%nat.
Proof.
  revert s. induction fuel as [|fuel IH]; intros s.
  - unfold trace_of. simpl. auto.
  - destruct (done_at env (now s)) eqn:Hd.
    + rewrite (producer_stops _ _ _ Hd). unfold trace_of. simpl.
      repeat split; [constructor | lia].
    + rewrite (producer_ticks _ _ _ Hd).
      destruct (IH (slept (state_of (processURLs env s)) PollingInterval))
        as (I1 & I2 & I3).
      pose proof (processURLs_duration env s) as [D _].
      pose proof (processURLs_find_time env s) as Hf.
      unfold trace_of in *. cbn [fst snd now slept] in *.
      rewrite find_times_app, Hf. cbn [app find_times].
      rewrite PollingInterval_val in *.
      destruct (find_times (snd (producer fuel env _))) as [|t2 l] eqn:El.
      * repeat split; [repeat constructor; lia | simpl; lia].
      * inversion I2 as [|? ? Ht2 Hl]; subst.
        split; [split; [lia | exact I1]|]. split.
        -- constructor; [lia|]. constructor; [lia|].
           eapply Forall_impl; [|exact Hl]. intros t Ht. cbv beta in Ht. lia.
        -- simpl in *. lia.
Qed.
